(** * Task discovery for partial-order reduction: effect summaries and the
      task-set builder of [tasks.hpp] / [tasks.cpp]

    The development embeds the C++ code shallowly:
    - pointers ([const nts::Variable *], [State *], [Task *], ...) are
      addresses, a null pointer is [None];
    - [std::set<const Variable *>] is a [gset] of addresses and
      [std::map<std::string, Task *>] a [gmap] from strings to addresses;
    - the [user_data] slots of the shared graph nodes and the objects
      allocated with [new] live in an explicit store that every stage of the
      pass threads through, also when it throws. *)

From Stdlib Require Import String Ascii.
From stdpp Require Import gmap strings list fin_maps sorting.

Local Open Scope string_scope.
Local Open Scope list_scope.

(** Addresses of C++ objects; only their identity matters. *)
Abbreviation addr := nat (only parsing).

(* ===================================================================== *)
(** ** Effect summaries *)
(* ===================================================================== *)

(** [struct GlobalWrites]: the set of global variables something may modify,
    or the flag saying it may modify any of them. *)
Module GlobalWrites.

Record t : Type := mk { vars : gset addr; everything : bool }.

(** [GlobalWrites() : everything ( false )] *)
Definition new : t := {| vars := ∅; everything := false |}.

(** Invariant I1 of the header: if [.everything] is true, then
    [.vars.size() == 0]. *)
Definition I1 (w : t) : Prop := everything w = true → vars w = ∅.

(** [vars.clear(); everything = true;] *)
Definition insert_everything (this : t) : t :=
  {| vars := ∅; everything := true |}.

(** The two guards run in sequence: the second one tests the flag the
    first one may just have set. *)
Definition union_with (this other : t) : t :=
  let this1 :=
    if everything other && negb (everything this)
    then insert_everything this else this in
  if everything this1 then this1
  else {| vars := vars this1 ∪ vars other; everything := everything this1 |}.

Definition contains (this : t) (v : addr) : bool :=
  if everything this then true else bool_decide (v ∈ vars this).

Definition insert (this : t) (v : addr) : t :=
  if everything this then this
  else {| vars := {[ v ]} ∪ vars this; everything := everything this |}.

(** Modelled from the spec: [GlobalWrites::clear] is declared in
    [tasks.hpp] and listed among the operations of the write summary, but
    its body is not part of the sources; it empties the summary, giving
    back the exact empty set of a freshly constructed one. *)
Definition clear (this : t) : t := new.

End GlobalWrites.

(** [struct GlobalReads : std::set<const Variable *>] *)
Abbreviation GlobalReads := (gset nat) (only parsing).

Module Globals.

Record t : Type := mk { reads : GlobalReads; writes : GlobalWrites.t }.

(** A default-constructed [Globals]. *)
Definition new : t := {| reads := ∅; writes := GlobalWrites.new |}.

(** [writes.union_with ( other.writes ); reads.insert ( other.reads... );] *)
Definition union_with (this other : t) : t :=
  {| reads := reads this ∪ reads other;
     writes := GlobalWrites.union_with (writes this) (writes other) |}.

(** Does the set [s] meet what [w] may write: a universal [w] meets every
    non-empty set. *)
Definition meets (s : gset addr) (w : GlobalWrites.t) : bool :=
  if GlobalWrites.everything w then negb (bool_decide (s = ∅))
  else negb (bool_decide (s ∩ GlobalWrites.vars w = ∅)).

(** Do two write summaries meet: a universal one meets another universal
    one and every non-empty exact one. *)
Definition writes_meet (w1 w2 : GlobalWrites.t) : bool :=
  if GlobalWrites.everything w1 then
    (if GlobalWrites.everything w2 then true
     else negb (bool_decide (GlobalWrites.vars w2 = ∅)))
  else meets (GlobalWrites.vars w1) w2.

(** Modelled from the spec: [Globals::may_collide_with] is declared in
    [tasks.hpp] without a body in the sources.  Two summaries collide when
    one of (A.reads ∩ B.writes), (A.writes ∩ B.reads), (A.writes ∩ B.writes)
    is non-empty, a universal write colliding with any non-empty reads or
    writes of the other side, and with itself. *)
Definition may_collide_with (this other : t) : bool :=
  meets (reads this) (writes other)
  || meets (reads other) (writes this)
  || writes_meet (writes this) (writes other).

(** The header's reading of a collision: some global variable is read or
    modified by one summary and modified by the other. *)
Definition collision_on (a b : t) (v : addr) : Prop :=
  (v ∈ reads a ∧ GlobalWrites.contains (writes b) v = true)
  ∨ (GlobalWrites.contains (writes a) v = true ∧ v ∈ reads b)
  ∨ (GlobalWrites.contains (writes a) v = true
     ∧ GlobalWrites.contains (writes b) v = true).

(** [a] covers [b]: whatever [b] reads or may write, [a] does too. *)
Definition covers (a b : t) : Prop :=
  reads b ⊆ reads a
  ∧ ∀ v, GlobalWrites.contains (writes b) v = true →
         GlobalWrites.contains (writes a) v = true.

End Globals.

(* ===================================================================== *)
(** ** The program graph of libNTS, as far as the pass looks at it *)
(* ===================================================================== *)

(** [nts::AnnotString]: a named annotation carrying a string. *)
Module AnnotString.
Record t : Type := mk { name : string; value : string }.
End AnnotString.

(** [nts::Annotation]: [type()] tells the string annotations from the
    others, every annotation has a name. *)
Module Annotation.
Inductive t : Type :=
| String (a : AnnotString.t)
| Other (name : string).

Definition name (a : t) : string :=
  match a with
  | String s => AnnotString.name s
  | Other n => n
  end.
End Annotation.

(** [nts::State]: its address and annotations; the mutable [user_data]
    slot is kept in the store, under the state's address. *)
Module State.
Record t : Type := mk { addr_of : addr; annotations : list Annotation.t }.
End State.

(** [nts::Transition]: its address and its end points. *)
Module Transition.
Record t : Type := mk { addr_of : addr; from : addr; to : addr }.
End Transition.

Module BasicNts.
Record t : Type := mk {
  addr_of : addr;
  name : string;
  states : list State.t;
  transitions : list Transition.t
}.
End BasicNts.

(** [nts::Instance]: refers to the [BasicNts] it instantiates. *)
Module Instance.
Record t : Type := mk { basic_nts : BasicNts.t }.
End Instance.

Module Nts.
Record t : Type := mk { instances : list Instance.t }.
End Nts.

(* ===================================================================== *)
(** ** Analysis records and tasks *)
(* ===================================================================== *)

Module TransitionInfo.
Record t : Type := mk { transition : addr; global : Globals.t }.
End TransitionInfo.

(** [struct StateInfo]: [t] is the owning task, [nullptr] until assigned. *)
Module StateInfo.
Record t : Type := mk { st : addr; t_ : option addr }.
End StateInfo.

Module Task.
(** [has_number] and [number] are one optional field here. *)
Record t : Type := mk {
  name : string;
  states : list addr;
  direct_global : Globals.t;
  transitive_global : Globals.t;
  initial_states : list addr;
  final_states : list addr;
  number : option nat
}.

(** [new Task()] followed by [->name = task_name]: every container and
    both summaries are default-constructed. *)
Definition new (task_name : string) : t :=
  {| name := task_name; states := [];
     direct_global := Globals.new; transitive_global := Globals.new;
     initial_states := []; final_states := []; number := None |}.

Definition set_transitive_global (g : Globals.t) (this : t) : t :=
  {| name := name this; states := states this;
     direct_global := direct_global this; transitive_global := g;
     initial_states := initial_states this;
     final_states := final_states this; number := number this |}.
End Task.

(* ===================================================================== *)
(** ** The store and the monad of the pass *)
(* ===================================================================== *)

(** What the pass mutates: the [user_data] slots of states and transitions
    (absent = [nullptr]), the objects it allocates with [new], and the next
    free address: [new] hands out [brk] and moves it on, so that two
    allocations of one run never share an address. *)
Module Store.
Record t : Type := mk {
  state_user_data : gmap addr addr;
  transition_user_data : gmap addr addr;
  state_infos : gmap addr StateInfo.t;
  transition_infos : gmap addr TransitionInfo.t;
  task_objs : gmap addr Task.t;
  brk : addr
}.

Definition empty : t :=
  {| state_user_data := ∅; transition_user_data := ∅; state_infos := ∅;
     transition_infos := ∅; task_objs := ∅; brk := 0 |}.
End Store.

(** [std::logic_error], told apart by its [what()] string. *)
Inductive exception : Type := logic_error (what : string).

Inductive outcome (A : Type) : Type :=
| Ok (a : A)
| Throw (e : exception).
Arguments Ok {A} a.
Arguments Throw {A} e.

(** A computation changes the store and returns or throws; what it did to
    the store before throwing stays done. *)
Definition M (A : Type) : Type := Store.t → Store.t * outcome A.

Definition ret {A : Type} (a : A) : M A := λ σ, (σ, Ok a).

Definition throw {A : Type} (e : exception) : M A := λ σ, (σ, Throw e).

Definition bind {A B : Type} (m : M A) (k : A → M B) : M B :=
  λ σ, match m σ with
       | (σ', Ok a) => k a σ'
       | (σ', Throw e) => (σ', Throw e)
       end.

Notation "'do' x <- m ; k" := (bind m (λ x, k))
  (at level 10, x name, m at level 100, k at level 200,
   format "'[v' 'do'  x  <-  m ; '/' k ']'").
Notation "'run' m ; k" := (bind m (λ _, k))
  (at level 10, m at level 100, k at level 200,
   format "'[v' 'run'  m ; '/' k ']'").

(** [for ( x : l ) acc = body ( acc, x );] with an exception leaving the
    loop. *)
Fixpoint for_each {A S : Type} (body : S → A → M S) (l : list A) (acc : S)
  : M S :=
  match l with
  | [] => ret acc
  | x :: l' => do acc' <- body acc x; for_each body l' acc'
  end.

Definition read_state_user_data (s : State.t) : M (option addr) :=
  λ σ, (σ, Ok (Store.state_user_data σ !! State.addr_of s)).

Definition read_transition_user_data (t : Transition.t) : M (option addr) :=
  λ σ, (σ, Ok (Store.transition_user_data σ !! Transition.addr_of t)).

(** [s->user_data = ( void * ) si] *)
Definition write_state_user_data (s : State.t) (p : addr) : M unit :=
  λ σ, ({| Store.state_user_data := <[State.addr_of s := p]> (Store.state_user_data σ);
           Store.transition_user_data := Store.transition_user_data σ;
           Store.state_infos := Store.state_infos σ;
           Store.transition_infos := Store.transition_infos σ;
           Store.task_objs := Store.task_objs σ;
           Store.brk := Store.brk σ |}, Ok tt).

Definition write_transition_user_data (t : Transition.t) (p : addr) : M unit :=
  λ σ, ({| Store.state_user_data := Store.state_user_data σ;
           Store.transition_user_data :=
             <[Transition.addr_of t := p]> (Store.transition_user_data σ);
           Store.state_infos := Store.state_infos σ;
           Store.transition_infos := Store.transition_infos σ;
           Store.task_objs := Store.task_objs σ;
           Store.brk := Store.brk σ |}, Ok tt).

(** [new StateInfo()] with its two fields set. *)
Definition new_StateInfo (si : StateInfo.t) : M addr :=
  λ σ, ({| Store.state_user_data := Store.state_user_data σ;
           Store.transition_user_data := Store.transition_user_data σ;
           Store.state_infos := <[Store.brk σ := si]> (Store.state_infos σ);
           Store.transition_infos := Store.transition_infos σ;
           Store.task_objs := Store.task_objs σ;
           Store.brk := S (Store.brk σ) |}, Ok (Store.brk σ)).

(** [si->t = t] *)
Definition set_StateInfo_t (p : addr) (t : addr) : M unit :=
  λ σ, ({| Store.state_user_data := Store.state_user_data σ;
           Store.transition_user_data := Store.transition_user_data σ;
           Store.state_infos :=
             alter (λ si, StateInfo.mk (StateInfo.st si) (Some t)) p
                   (Store.state_infos σ);
           Store.transition_infos := Store.transition_infos σ;
           Store.task_objs := Store.task_objs σ;
           Store.brk := Store.brk σ |}, Ok tt).

Definition new_TransitionInfo (ti : TransitionInfo.t) : M addr :=
  λ σ, ({| Store.state_user_data := Store.state_user_data σ;
           Store.transition_user_data := Store.transition_user_data σ;
           Store.state_infos := Store.state_infos σ;
           Store.transition_infos :=
             <[Store.brk σ := ti]> (Store.transition_infos σ);
           Store.task_objs := Store.task_objs σ;
           Store.brk := S (Store.brk σ) |}, Ok (Store.brk σ)).

(** [ti->global = g] *)
Definition set_TransitionInfo_global (p : addr) (g : Globals.t) : M unit :=
  λ σ, ({| Store.state_user_data := Store.state_user_data σ;
           Store.transition_user_data := Store.transition_user_data σ;
           Store.state_infos := Store.state_infos σ;
           Store.transition_infos :=
             alter (λ ti, TransitionInfo.mk (TransitionInfo.transition ti) g) p
                   (Store.transition_infos σ);
           Store.task_objs := Store.task_objs σ;
           Store.brk := Store.brk σ |}, Ok tt).

(** [new Task()] with its name set. *)
Definition new_Task (task_name : string) : M addr :=
  λ σ, ({| Store.state_user_data := Store.state_user_data σ;
           Store.transition_user_data := Store.transition_user_data σ;
           Store.state_infos := Store.state_infos σ;
           Store.transition_infos := Store.transition_infos σ;
           Store.task_objs := <[Store.brk σ := Task.new task_name]> (Store.task_objs σ);
           Store.brk := S (Store.brk σ) |}, Ok (Store.brk σ)).

(** [t->transitive_global = g] *)
Definition set_Task_transitive_global (p : addr) (g : Globals.t) : M unit :=
  λ σ, ({| Store.state_user_data := Store.state_user_data σ;
           Store.transition_user_data := Store.transition_user_data σ;
           Store.state_infos := Store.state_infos σ;
           Store.transition_infos := Store.transition_infos σ;
           Store.task_objs :=
             alter (Task.set_transitive_global g) p (Store.task_objs σ);
           Store.brk := Store.brk σ |}, Ok tt).

(* ===================================================================== *)
(** ** Strings and annotations *)
(* ===================================================================== *)

(** [std::string::find ( c )]: the position of the first [c], [None] for
    [npos]. *)
Fixpoint find (c : ascii) (s : string) : option nat :=
  match s with
  | EmptyString => None
  | String c' s' => if Ascii.eqb c' c then Some 0 else S <$> find c s'
  end.

(** [find_annot_origin]: the first string annotation named "origin". *)
Fixpoint find_annot_origin (ants : list Annotation.t) : option AnnotString.t :=
  match ants with
  | [] => None
  | Annotation.String a :: ants' =>
      if bool_decide (AnnotString.name a = "origin") then Some a
      else find_annot_origin ants'
  | Annotation.Other _ :: ants' => find_annot_origin ants'
  end.

(* ===================================================================== *)
(** ** The task-set builder, [class Tasks] *)
(* ===================================================================== *)

Module Tasks.

(** [toplevel_bnts] is a [std::set<BasicNts *>]: kept in ascending order
    of address, one entry per address.  [main_task] is never assigned by
    the constructor; [None] stands for that. *)
Record t : Type := mk {
  n : Nts.t;
  toplevel_bnts : list BasicNts.t;
  main_nts_name : string;
  tasks : list addr;
  name_to_task : gmap string addr;
  main_task : option addr;
  idle_worker_task : addr
}.

Definition set_main_nts_name (m : string) (this : t) : t :=
  {| n := n this; toplevel_bnts := toplevel_bnts this; main_nts_name := m;
     tasks := tasks this; name_to_task := name_to_task this;
     main_task := main_task this;
     idle_worker_task := idle_worker_task this |}.

Definition set_toplevel_bnts (l : list BasicNts.t) (this : t) : t :=
  {| n := n this; toplevel_bnts := l; main_nts_name := main_nts_name this;
     tasks := tasks this; name_to_task := name_to_task this;
     main_task := main_task this;
     idle_worker_task := idle_worker_task this |}.

(** [tasks.push_back ( t ); name_to_task.insert ( make_pair ( task_name, t ) );]
    It is only reached when [task_name] is not in the map. *)
Definition register (task_name : string) (p : addr) (this : t) : t :=
  {| n := n this; toplevel_bnts := toplevel_bnts this;
     main_nts_name := main_nts_name this;
     tasks := tasks this ++ [p];
     name_to_task := <[task_name := p]> (name_to_task this);
     main_task := main_task this;
     idle_worker_task := idle_worker_task this |}.

(** [std::set::insert] on the ordered set of unit addresses. *)
Fixpoint set_insert (bn : BasicNts.t) (l : list BasicNts.t)
  : list BasicNts.t :=
  match l with
  | [] => [bn]
  | x :: l' =>
      if (BasicNts.addr_of bn <? BasicNts.addr_of x)%nat then bn :: l
      else if (BasicNts.addr_of bn =? BasicNts.addr_of x)%nat then l
      else x :: set_insert bn l'
  end.

(** [Tasks::Tasks]: the sentinel task is allocated and named, and kept
    out of the map. *)
Definition ctor (nts : Nts.t) : M t :=
  do idle <- new_Task "idle_worker_task";
  ret {| n := nts; toplevel_bnts := []; main_nts_name := "";
         tasks := []; name_to_task := ∅; main_task := None;
         idle_worker_task := idle |}.

(** The loop of [calculate_toplevel_bnts] over [n.instances()], starting
    from the cleared set. *)
Definition discover (nts : Nts.t) : list BasicNts.t :=
  fold_left (λ acc inst, set_insert (Instance.basic_nts inst) acc)
            (Nts.instances nts) [].

Definition calculate_toplevel_bnts (this : t) : t :=
  set_toplevel_bnts (discover (n this)) this.

(** Lines 114-129 of the loop body: look the name up, create and register
    the task on a miss, then [si->t = t]. *)
Definition assign_task (si : addr) (task_name : string) (this : t) : M t :=
  match name_to_task this !! task_name with
  | None =>
      do p <- new_Task task_name;
      run set_StateInfo_t si p;
      ret (register task_name p this)
  | Some p =>
      run set_StateInfo_t si p;
      ret this
  end.

(** The body of the loop of [split_to_tasks ( bn, split_by_annot )]; the
    lines it prints to [cout] are left out. *)
Definition split_state (bn : BasicNts.t) (split_by_annot : bool)
    (this : t) (s : State.t) : M t :=
  do ud <- read_state_user_data s;
  match ud with
  | Some _ => throw (logic_error "Precondition R4 failed")
  | None =>
      do si <- new_StateInfo (StateInfo.mk (State.addr_of s) None);
      run write_state_user_data s si;
      if split_by_annot then
        match find_annot_origin (State.annotations s) with
        | None => throw (logic_error "Precondition R3 failed")
        | Some origin =>
            match find ":" (AnnotString.value origin) with
            | None =>
                run set_StateInfo_t si (idle_worker_task this);
                ret this
            | Some pos =>
                assign_task si (substring 0 pos (AnnotString.value origin)) this
            end
        end
      else assign_task si (BasicNts.name bn) this
  end.

Definition split_to_tasks_bn (bn : BasicNts.t) (split_by_annot : bool)
    (this : t) : M t :=
  for_each (split_state bn split_by_annot) (BasicNts.states bn) this.

(** [split_to_tasks()]: the main unit by its name, the others by the
    origin annotations. *)
Definition split_to_tasks (this : t) : M t :=
  for_each
    (λ acc bn,
       if bool_decide (BasicNts.name bn = main_nts_name acc)
       then split_to_tasks_bn bn false acc
       else split_to_tasks_bn bn true acc)
    (toplevel_bnts this) this.

Section with_primitive.

(** The primitive of [logic_utils.hpp] giving the global variables a
    transition reads and may write. *)
Variable used_global_variables : Nts.t → Transition.t → Globals.t.

(** The body of the inner loop of [compute_transition_info]. *)
Definition transition_info (this : t) (tr : Transition.t) : M t :=
  do ud <- read_transition_user_data tr;
  match ud with
  | Some _ => throw (logic_error "Precondition Q2 does not hold")
  | None =>
      do ti <- new_TransitionInfo
                 (TransitionInfo.mk (Transition.addr_of tr) Globals.new);
      run write_transition_user_data tr ti;
      run set_TransitionInfo_global ti (used_global_variables (n this) tr);
      ret this
  end.

Definition compute_transition_info (this : t) : M t :=
  for_each
    (λ acc bn, for_each transition_info (BasicNts.transitions bn) acc)
    (toplevel_bnts this) this.

(** [Tasks::compute_tasks]: construct, discover the units, partition
    the states, attach the transition records, return. *)
Definition compute_tasks (nts : Nts.t) (main_nts : string) : M t :=
  do tasks0 <- ctor nts;
  do tasks1 <- ret (set_main_nts_name main_nts tasks0);
  do tasks2 <- ret (calculate_toplevel_bnts tasks1);
  do tasks3 <- split_to_tasks tasks2;
  do tasks4 <- compute_transition_info tasks3;
  ret tasks4.

End with_primitive.

(** The direct summary of the task at [p] in the store; a pointer to no
    task contributes nothing. *)
Definition direct_of (σ : Store.t) (p : addr) : Globals.t :=
  match Store.task_objs σ !! p with
  | Some task => Task.direct_global task
  | None => Globals.new
  end.

(** The union of a list of summaries, taken from left to right. *)
Definition union_all (l : list Globals.t) : Globals.t :=
  fold_left Globals.union_with l Globals.new.

(** Modelled from the spec: [Tasks::compute_transitive_globals] is
    declared in [tasks.hpp] without a body in the sources.  It is a single
    pass: transitive[T] = union of direct[U] for all U in tasks, for each
    T; every task may activate every task, including itself. *)
Definition compute_transitive_globals (this : t) : M t :=
  for_each
    (λ acc p,
       do g <- (λ σ, (σ, Ok (union_all (direct_of σ <$> tasks acc))));
       run set_Task_transitive_global p g;
       ret acc)
    (tasks this) this.

End Tasks.

(* ===================================================================== *)
(** ** Vocabulary of the specification *)
(* ===================================================================== *)

(** Where the partition rule sends a state: to the sentinel, to the task of
    a given name, or nowhere because the origin annotation is missing. *)
Inductive target : Type :=
| ToSentinel
| ToTask (task_name : string)
| NoOrigin.

Definition target_of (bn : BasicNts.t) (split_by_annot : bool) (s : State.t)
  : target :=
  if split_by_annot then
    match find_annot_origin (State.annotations s) with
    | None => NoOrigin
    | Some origin =>
        match find ":" (AnnotString.value origin) with
        | None => ToSentinel
        | Some pos => ToTask (substring 0 pos (AnnotString.value origin))
        end
    end
  else ToTask (BasicNts.name bn).

(** One step of the scan over the states: the unit, whether it is split by
    annotation, and the state. *)
Abbreviation visit := (BasicNts.t * bool * State.t)%type (only parsing).

Definition visit_state (this : Tasks.t) (v : visit) : M Tasks.t :=
  Tasks.split_state v.1.1 v.1.2 this v.2.

Definition visit_target (v : visit) : target := target_of v.1.1 v.1.2 v.2.

Definition visit_addr (v : visit) : addr := State.addr_of v.2.

(** The states in the order the pass meets them: unit after unit in
    ascending address, the main unit by its name, the others by origin. *)
Definition state_visits (main : string) (tl : list BasicNts.t) : list visit :=
  tl ≫= λ bn,
    (λ s, (bn, negb (bool_decide (BasicNts.name bn = main)), s))
      <$> BasicNts.states bn.

Definition transition_visits (tl : list BasicNts.t) : list Transition.t :=
  tl ≫= BasicNts.transitions.

(** The store after [new StateInfo], [si->st = s], [s->user_data = si] and
    [si->t = owner]. *)
Definition attach (s : State.t) (owner : option addr) (σ : Store.t) : Store.t :=
  {| Store.state_user_data :=
       <[State.addr_of s := Store.brk σ]> (Store.state_user_data σ);
     Store.transition_user_data := Store.transition_user_data σ;
     Store.state_infos :=
       <[Store.brk σ := StateInfo.mk (State.addr_of s) owner]>
         (Store.state_infos σ);
     Store.transition_infos := Store.transition_infos σ;
     Store.task_objs := Store.task_objs σ;
     Store.brk := S (Store.brk σ) |}.

(** The store after a task named [task_name] has been allocated as well. *)
Definition attach_new_task (s : State.t) (task_name : string) (σ : Store.t)
  : Store.t :=
  {| Store.state_user_data :=
       <[State.addr_of s := Store.brk σ]> (Store.state_user_data σ);
     Store.transition_user_data := Store.transition_user_data σ;
     Store.state_infos :=
       <[Store.brk σ := StateInfo.mk (State.addr_of s) (Some (S (Store.brk σ)))]>
         (Store.state_infos σ);
     Store.transition_infos := Store.transition_infos σ;
     Store.task_objs :=
       <[S (Store.brk σ) := Task.new task_name]> (Store.task_objs σ);
     Store.brk := S (S (Store.brk σ)) |}.

(** The store after a transition record holding [g] has been attached. *)
Definition attach_transition (tr : Transition.t) (g : Globals.t) (σ : Store.t)
  : Store.t :=
  {| Store.state_user_data := Store.state_user_data σ;
     Store.transition_user_data :=
       <[Transition.addr_of tr := Store.brk σ]> (Store.transition_user_data σ);
     Store.state_infos := Store.state_infos σ;
     Store.transition_infos :=
       <[Store.brk σ := TransitionInfo.mk (Transition.addr_of tr) g]>
         (Store.transition_infos σ);
     Store.task_objs := Store.task_objs σ;
     Store.brk := S (Store.brk σ) |}.

(** The owner recorded for a state is the one its target asks for. *)
Definition owner_matches (this : Tasks.t) (tg : target) (owner : addr) : Prop :=
  match tg with
  | ToSentinel => owner = Tasks.idle_worker_task this
  | ToTask task_name => Tasks.name_to_task this !! task_name = Some owner
  | NoOrigin => False
  end.

(** The state of [v] carries a record the pass allocated, pointing back to
    the state and to the owner its target asks for. *)
Definition state_assigned (σ : Store.t) (this : Tasks.t) (v : visit) : Prop :=
  ∃ p owner,
    Store.state_user_data σ !! visit_addr v = Some p
    ∧ p < Store.brk σ
    ∧ Store.state_infos σ !! p = Some (StateInfo.mk (visit_addr v) (Some owner))
    ∧ owner_matches this (visit_target v) owner.

(** The transition carries a record holding the summary [g]. *)
Definition transition_recorded (σ : Store.t) (g : Transition.t → Globals.t)
    (tr : Transition.t) : Prop :=
  ∃ p,
    Store.transition_user_data σ !! Transition.addr_of tr = Some p
    ∧ p < Store.brk σ
    ∧ Store.transition_infos σ !! p
      = Some (TransitionInfo.mk (Transition.addr_of tr) (g tr)).

(** What holds of the builder and the store while the states are
    partitioned, [vs] being the visits done so far. *)
Record split_inv (nts : Nts.t) (main : string) (idle : addr)
    (vs : list visit) (this : Tasks.t) (σ : Store.t) : Prop := {
  si_n : Tasks.n this = nts;
  si_main : Tasks.main_nts_name this = main;
  si_toplevel : Tasks.toplevel_bnts this = Tasks.discover nts;
  si_main_task : Tasks.main_task this = None;
  si_idle : Tasks.idle_worker_task this = idle;
  si_idle_lt : idle < Store.brk σ;
  si_idle_obj :
    Store.task_objs σ !! idle = Some (Task.new "idle_worker_task");
  si_map : ∀ task_name p,
    Tasks.name_to_task this !! task_name = Some p →
    idle < p ∧ p < Store.brk σ ∧ p ∈ Tasks.tasks this
    ∧ Store.task_objs σ !! p = Some (Task.new task_name);
  si_tasks : ∀ p,
    p ∈ Tasks.tasks this →
    ∃ task_name, Tasks.name_to_task this !! task_name = Some p;
  si_states : ∀ v, v ∈ vs → state_assigned σ this v
}.

(** The state at address [a] carries a record pointing back to it, with
    owner [o]. *)
Definition state_recorded (σ : Store.t) (a : addr) (o : option addr) : Prop :=
  ∃ p, Store.state_user_data σ !! a = Some p
       ∧ Store.state_infos σ !! p = Some (StateInfo.mk a o).

(** The store and the builder when the scan of the states starts: right
    after the constructor and [calculate_toplevel_bnts]. *)
Definition store_start (σ : Store.t) : Store.t :=
  (new_Task "idle_worker_task" σ).1.

Definition builder_start (nts : Nts.t) (main : string) (σ : Store.t)
  : Tasks.t :=
  {| Tasks.n := nts; Tasks.toplevel_bnts := Tasks.discover nts;
     Tasks.main_nts_name := main; Tasks.tasks := [];
     Tasks.name_to_task := ∅; Tasks.main_task := None;
     Tasks.idle_worker_task := Store.brk σ |}.

(** The separator occurs in the string. *)
Definition has_separator (s : string) : Prop :=
  In ":"%char (list_ascii_of_string s).

(** The two failure kinds of the specification. *)
Inductive failure : Type :=
| DoubleInitialization
| MissingOriginMetadata.

(** The failure an exception of the pass stands for, by its message. *)
Definition failure_of (e : exception) : option failure :=
  match e with
  | logic_error what =>
      if bool_decide (what = "Precondition R4 failed") then
        Some DoubleInitialization
      else if bool_decide (what = "Precondition Q2 does not hold") then
        Some DoubleInitialization
      else if bool_decide (what = "Precondition R3 failed") then
        Some MissingOriginMetadata
      else None
  end.

Definition has_origin (s : State.t) : bool :=
  match find_annot_origin (State.annotations s) with
  | Some _ => true
  | None => false
  end.

(** The failure the specification expects from the scan of the states:
    [carried] holds the addresses of the states already carrying a record.
    A state met while it carries one is a double initialisation; a state
    split by annotation without an origin lacks required metadata. *)
Fixpoint expected_states (carried : gset addr) (vs : list visit)
  : failure + gset addr :=
  match vs with
  | [] => inr carried
  | v :: vs' =>
      if bool_decide (visit_addr v ∈ carried) then inl DoubleInitialization
      else if v.1.2 && negb (has_origin v.2) then inl MissingOriginMetadata
      else expected_states ({[ visit_addr v ]} ∪ carried) vs'
  end.

Fixpoint expected_transitions (carried : gset addr) (trs : list Transition.t)
  : option failure :=
  match trs with
  | [] => None
  | tr :: trs' =>
      if bool_decide (Transition.addr_of tr ∈ carried)
      then Some DoubleInitialization
      else expected_transitions ({[ Transition.addr_of tr ]} ∪ carried) trs'
  end.

Definition expected_failure (σ : Store.t) (nts : Nts.t) (main : string)
  : option failure :=
  match expected_states (dom (Store.state_user_data σ))
                        (state_visits main (Tasks.discover nts)) with
  | inl f => Some f
  | inr _ =>
      expected_transitions (dom (Store.transition_user_data σ))
                           (transition_visits (Tasks.discover nts))
  end.

(** A computation raises the failure [f]. *)
Definition raises {A : Type} (r : Store.t * outcome A) (f : failure) : Prop :=
  ∃ e, r.2 = Throw e ∧ failure_of e = Some f.

Definition returns {A : Type} (r : Store.t * outcome A) : Prop :=
  ∃ a, r.2 = Ok a.

(** The entry-point preconditions on the nodes the pass meets: no record
    attached yet (Q4), every node met once, every state split by annotation
    has its origin (Q3). *)
Definition well_formed (σ : Store.t) (nts : Nts.t) (main : string) : Prop :=
  (∀ v, v ∈ state_visits main (Tasks.discover nts) →
        Store.state_user_data σ !! visit_addr v = None
        ∧ (v.1.2 = true → has_origin v.2 = true))
  ∧ (∀ tr, tr ∈ transition_visits (Tasks.discover nts) →
           Store.transition_user_data σ !! Transition.addr_of tr = None)
  ∧ NoDup (visit_addr <$> state_visits main (Tasks.discover nts))
  ∧ NoDup (Transition.addr_of <$> transition_visits (Tasks.discover nts)).

(** The store after [t->transitive_global = g] for the task at [p]. *)
Definition with_transitive (p : addr) (g : Globals.t) (σ : Store.t) : Store.t :=
  (set_Task_transitive_global p g σ).1.

(* ===================================================================== *)
(** ** A small program to run the pass on *)
(* ===================================================================== *)

Module Demo.

Definition origin (v : string) : list Annotation.t :=
  [Annotation.Other "line"; Annotation.String (AnnotString.mk "origin" v)].

(** The main unit: one state, one transition looping on it. *)
Definition main_unit : BasicNts.t :=
  BasicNts.mk 10 "main" [State.mk 1 (origin "st_0")] [Transition.mk 100 1 1].

(** A unit of thread glue holding the inlined body of [worker], a state
    of its own and a state coming from a thread body that happens to be
    called like the sentinel. *)
Definition worker_1 : State.t := State.mk 2 (origin "worker:3:label").
Definition running_1 : State.t := State.mk 3 (origin "s_running_1").
Definition idle_like : State.t := State.mk 4 (origin "idle_worker_task:0:x").
Definition worker_2 : State.t := State.mk 5 (origin "worker:4:l2").

Definition thread_unit : BasicNts.t :=
  BasicNts.mk 20 "__thread_create"
    [worker_1; running_1; idle_like; worker_2] [Transition.mk 101 2 3].

Definition nts : Nts.t :=
  Nts.mk [Instance.mk thread_unit; Instance.mk main_unit;
          Instance.mk thread_unit].

(** Only the main unit. *)
Definition small : Nts.t := Nts.mk [Instance.mk main_unit].

(** A unit whose second state was never tagged with its origin. *)
Definition untagged : State.t := State.mk 6 [Annotation.Other "line"].

Definition broken_unit : BasicNts.t :=
  BasicNts.mk 30 "__thread_create" [worker_1; untagged; running_1] [].

Definition broken : Nts.t := Nts.mk [Instance.mk broken_unit].

(** Every transition reads the global at address 7; transition 101
    writes through an unresolved target. *)
Definition used_global_variables (n : Nts.t) (tr : Transition.t) : Globals.t :=
  Globals.mk {[ 7 ]}
    (GlobalWrites.mk ∅ (bool_decide (Transition.addr_of tr = 101))).

Definition compute (n : Nts.t) : Store.t * outcome Tasks.t :=
  Tasks.compute_tasks used_global_variables n "main" Store.empty.

(** The builder a run returned; an empty one if it threw. *)
Definition result (n : Nts.t) : Tasks.t :=
  match (compute n).2 with
  | Ok ts => ts
  | Throw _ => builder_start n "" Store.empty
  end.

(** Two tasks with direct summaries, as an aggregation would leave them. *)
Definition two_tasks : Store.t :=
  {| Store.state_user_data := ∅; Store.transition_user_data := ∅;
     Store.state_infos := ∅; Store.transition_infos := ∅;
     Store.task_objs :=
       {[ 0 := Task.mk "a" [] (Globals.mk {[ 7 ]} (GlobalWrites.mk {[ 8 ]} false))
                       Globals.new [] [] None;
          1 := Task.mk "b" [] (Globals.mk {[ 9 ]} (GlobalWrites.mk ∅ true))
                       Globals.new [] [] None ]};
     Store.brk := 2 |}.

Definition two_builder : Tasks.t :=
  {| Tasks.n := Nts.mk []; Tasks.toplevel_bnts := [];
     Tasks.main_nts_name := "main"; Tasks.tasks := [0; 1];
     Tasks.name_to_task := {[ "a" := 0; "b" := 1 ]};
     Tasks.main_task := None; Tasks.idle_worker_task := 2 |}.

End Demo.

(* ===================================================================== *)
(** ** Further vocabulary: the set of units and the order of the tasks *)
(* ===================================================================== *)

(** One unit lies before another in [toplevel_bnts]: its address is
    smaller. *)
Definition unit_before (x y : BasicNts.t) : Prop :=
  BasicNts.addr_of x < BasicNts.addr_of y.

(** Units are objects: instances referring to one address refer to one
    unit. *)
Definition units_consistent (l : list Instance.t) : Prop :=
  ∀ i j, i ∈ l → j ∈ l →
         BasicNts.addr_of (Instance.basic_nts i)
         = BasicNts.addr_of (Instance.basic_nts j) →
         Instance.basic_nts i = Instance.basic_nts j.

(** The task names asked for so far, with the one [v] asks for added at
    the end if it is new. *)
Definition see (acc : list string) (v : visit) : list string :=
  match visit_target v with
  | ToTask task_name =>
      if bool_decide (task_name ∈ acc) then acc else acc ++ [task_name]
  | _ => acc
  end.

(** The task names a scan asks for, each once, in the order they are first
    asked for. *)
Definition first_seen (vs : list visit) : list string := fold_left see vs [].

(* ===================================================================== *)
(** ** Laws of the effect summaries *)
(* ===================================================================== *)

Section summary_laws.

Implicit Types (w x y z : GlobalWrites.t) (a b c : Globals.t).

Lemma GlobalWrites_eq w x :
  GlobalWrites.vars w = GlobalWrites.vars x →
  GlobalWrites.everything w = GlobalWrites.everything x → w = x.
Proof. destruct w, x; simpl; intros -> ->; reflexivity. Qed.

Lemma GlobalWrites_union_exact (s1 s2 : gset addr) :
  GlobalWrites.union_with (GlobalWrites.mk s1 false) (GlobalWrites.mk s2 false)
  = GlobalWrites.mk (s1 ∪ s2) false.
Proof. reflexivity. Qed.

Lemma GlobalWrites_union_everything_r w x :
  GlobalWrites.everything x = true →
  GlobalWrites.everything (GlobalWrites.union_with w x) = true.
Proof.
  intros Hx. unfold GlobalWrites.union_with. rewrite Hx.
  destruct (GlobalWrites.everything w) eqn:Hw; simpl; [by rewrite Hw | done].
Qed.

Lemma GlobalWrites_union_everything_l w x :
  GlobalWrites.everything w = true →
  GlobalWrites.union_with w x = w.
Proof.
  intros Hw. unfold GlobalWrites.union_with. rewrite Hw.
  rewrite andb_false_r. by rewrite Hw.
Qed.

Lemma GlobalWrites_union_comm w x :
  GlobalWrites.I1 w → GlobalWrites.I1 x →
  GlobalWrites.union_with w x = GlobalWrites.union_with x w.
Proof.
  unfold GlobalWrites.I1, GlobalWrites.union_with.
  destruct w as [s1 [|]], x as [s2 [|]]; simpl; intros H1 H2.
  - rewrite H1, H2; done.
  - rewrite H1; done.
  - rewrite H2; done.
  - f_equal. apply (comm_L (∪)).
Qed.

Lemma GlobalWrites_union_assoc w x y :
  GlobalWrites.union_with (GlobalWrites.union_with w x) y
  = GlobalWrites.union_with w (GlobalWrites.union_with x y).
Proof.
  unfold GlobalWrites.union_with.
  destruct w as [s1 [|]], x as [s2 [|]], y as [s3 [|]]; simpl; try done.
  f_equal. by rewrite (assoc_L (∪)).
Qed.

Lemma GlobalWrites_union_idemp w : GlobalWrites.union_with w w = w.
Proof.
  unfold GlobalWrites.union_with.
  destruct w as [s [|]]; simpl; [done |].
  f_equal. apply (idemp_L (∪)).
Qed.

Lemma GlobalWrites_union_I1 w x :
  GlobalWrites.I1 w → GlobalWrites.I1 (GlobalWrites.union_with w x).
Proof.
  unfold GlobalWrites.I1, GlobalWrites.union_with.
  destruct w as [s1 [|]], x as [s2 [|]]; simpl; auto; discriminate.
Qed.

Lemma GlobalWrites_contains_union w x v :
  GlobalWrites.contains (GlobalWrites.union_with w x) v
  = GlobalWrites.contains w v || GlobalWrites.contains x v.
Proof.
  unfold GlobalWrites.contains, GlobalWrites.union_with.
  destruct w as [s1 [|]], x as [s2 [|]]; simpl; try done.
  - by rewrite orb_true_r.
  - rewrite <- bool_decide_or. apply bool_decide_ext. set_solver.
Qed.

End summary_laws.

(* ===================================================================== *)
(** ** Loops in the monad *)
(* ===================================================================== *)

Section loops.

Context {A S : Type}.
Implicit Types (body : S → A → M S) (l : list A) (acc : S) (σ : Store.t).

Lemma for_each_cons body x l acc σ :
  for_each body (x :: l) acc σ
  = match body acc x σ with
    | (σ', Ok acc') => for_each body l acc' σ'
    | (σ', Throw e) => (σ', Throw e)
    end.
Proof. reflexivity. Qed.

Lemma for_each_app body l1 l2 acc σ :
  for_each body (l1 ++ l2) acc σ
  = match for_each body l1 acc σ with
    | (σ', Ok acc') => for_each body l2 acc' σ'
    | (σ', Throw e) => (σ', Throw e)
    end.
Proof.
  revert acc σ. induction l1 as [|x l1 IH]; intros acc σ; [done |].
  rewrite <- app_comm_cons, !for_each_cons.
  destruct (body acc x σ) as [σ1 [acc1 | e]]; [apply IH | done].
Qed.

(** The loop rule: an invariant indexed by the elements done so far; an
    exception is raised by one element, after the ones before it. *)
Lemma for_each_rule body l
    (I : list A → S → Store.t → Prop)
    (E : list A → A → exception → Store.t → Prop) :
  (∀ pre x post acc σ,
      l = pre ++ x :: post → I pre acc σ →
      match body acc x σ with
      | (σ', Ok acc') => I (pre ++ [x]) acc' σ'
      | (σ', Throw e) => E pre x e σ'
      end) →
  ∀ acc σ, I [] acc σ →
    match for_each body l acc σ with
    | (σ', Ok acc') => I l acc' σ'
    | (σ', Throw e) => ∃ pre x post, l = pre ++ x :: post ∧ E pre x e σ'
    end.
Proof.
  intros Hbody.
  assert (Hgen : ∀ rest done_ acc σ,
             l = done_ ++ rest → I done_ acc σ →
             match for_each body rest acc σ with
             | (σ', Ok acc') => I l acc' σ'
             | (σ', Throw e) =>
                 ∃ pre x post, l = pre ++ x :: post ∧ E pre x e σ'
             end).
  { induction rest as [|x rest IH]; intros done_ acc σ Hl HI.
    - simpl. rewrite app_nil_r in Hl. by subst.
    - rewrite for_each_cons.
      specialize (Hbody done_ x rest acc σ Hl HI).
      destruct (body acc x σ) as [σ1 [acc1 | e]].
      + apply (IH (done_ ++ [x])); [by rewrite <- app_assoc | done].
      + by exists done_, x, rest. }
  intros acc σ HI. by apply (Hgen l []).
Qed.

End loops.

Lemma for_each_fmap {A B S : Type} (body : S → B → M S) (g : A → B)
    (l : list A) (acc : S) (σ : Store.t) :
  for_each body (g <$> l) acc σ = for_each (λ acc x, body acc (g x)) l acc σ.
Proof.
  revert acc σ. induction l as [|x l IH]; intros acc σ; [done |].
  rewrite fmap_cons, !for_each_cons.
  destruct (body acc (g x) σ) as [σ1 [acc1 | e]]; [apply IH | done].
Qed.

Lemma for_each_bind {A B S : Type} (body : S → B → M S) (f : A → list B)
    (l : list A) (acc : S) (σ : Store.t) :
  for_each (λ acc x, for_each body (f x) acc) l acc σ
  = for_each body (l ≫= f) acc σ.
Proof.
  revert acc σ. induction l as [|x l IH]; intros acc σ; [done |].
  rewrite bind_cons, for_each_app, for_each_cons.
  destruct (for_each body (f x) acc σ) as [σ1 [acc1 | e]]; [apply IH | done].
Qed.

(* ===================================================================== *)
(** ** One state, one transition *)
(* ===================================================================== *)

Lemma Store_eq (σ1 σ2 : Store.t) :
  Store.state_user_data σ1 = Store.state_user_data σ2 →
  Store.transition_user_data σ1 = Store.transition_user_data σ2 →
  Store.state_infos σ1 = Store.state_infos σ2 →
  Store.transition_infos σ1 = Store.transition_infos σ2 →
  Store.task_objs σ1 = Store.task_objs σ2 →
  Store.brk σ1 = Store.brk σ2 →
  σ1 = σ2.
Proof. destruct σ1, σ2; simpl; by intros -> -> -> -> -> ->. Qed.

(** Lines 114-129 right after the record of [s] has been attached. *)
Lemma assign_task_attach (s : State.t) (task_name : string) (this : Tasks.t)
    (σ : Store.t) :
  Tasks.assign_task (Store.brk σ) task_name this (attach s None σ)
  = match Tasks.name_to_task this !! task_name with
    | Some p => (attach s (Some p) σ, Ok this)
    | None =>
        (attach_new_task s task_name σ,
         Ok (Tasks.register task_name (S (Store.brk σ)) this))
    end.
Proof.
  unfold Tasks.assign_task.
  destruct (Tasks.name_to_task this !! task_name) as [p|];
    unfold bind, ret; simpl; f_equal; apply Store_eq; simpl; try done;
    by rewrite alter_insert_eq.
Qed.

(** What one turn of the loop of [split_to_tasks] does, case by case. *)
Lemma split_state_eq (bn : BasicNts.t) (b : bool) (this : Tasks.t)
    (s : State.t) (σ : Store.t) :
  Tasks.split_state bn b this s σ
  = match Store.state_user_data σ !! State.addr_of s with
    | Some _ => (σ, Throw (logic_error "Precondition R4 failed"))
    | None =>
        match target_of bn b s with
        | NoOrigin =>
            (attach s None σ, Throw (logic_error "Precondition R3 failed"))
        | ToSentinel =>
            (attach s (Some (Tasks.idle_worker_task this)) σ, Ok this)
        | ToTask task_name =>
            match Tasks.name_to_task this !! task_name with
            | Some p => (attach s (Some p) σ, Ok this)
            | None =>
                (attach_new_task s task_name σ,
                 Ok (Tasks.register task_name (S (Store.brk σ)) this))
            end
        end
    end.
Proof.
  unfold Tasks.split_state, bind, read_state_user_data. simpl.
  destruct (Store.state_user_data σ !! State.addr_of s) as [p|]; [done |].
  change (write_state_user_data s (Store.brk σ)
            (new_StateInfo (StateInfo.mk (State.addr_of s) None) σ).1)
    with (attach s None σ, @Ok unit tt).
  unfold target_of. destruct b.
  - destruct (find_annot_origin (State.annotations s)) as [origin|]; [|done].
    destruct (find ":" (AnnotString.value origin)) as [pos|].
    + apply assign_task_attach.
    + unfold bind, ret. simpl. f_equal. apply Store_eq; simpl; try done.
      by rewrite alter_insert_eq.
  - apply assign_task_attach.
Qed.

Lemma transition_info_eq (g : Nts.t → Transition.t → Globals.t)
    (this : Tasks.t) (tr : Transition.t) (σ : Store.t) :
  Tasks.transition_info g this tr σ
  = match Store.transition_user_data σ !! Transition.addr_of tr with
    | Some _ => (σ, Throw (logic_error "Precondition Q2 does not hold"))
    | None => (attach_transition tr (g (Tasks.n this) tr) σ, Ok this)
    end.
Proof.
  unfold Tasks.transition_info, bind, read_transition_user_data. simpl.
  destruct (Store.transition_user_data σ !! Transition.addr_of tr); [done |].
  unfold ret. simpl. f_equal. apply Store_eq; simpl; try done.
  by rewrite alter_insert_eq.
Qed.

(* ===================================================================== *)
(** ** The invariant of the partition *)
(* ===================================================================== *)

Section partition.

Implicit Types (σ : Store.t) (this : Tasks.t) (v : visit) (s : State.t).

Lemma owner_matches_register this tg owner task_name q :
  Tasks.name_to_task this !! task_name = None →
  owner_matches this tg owner →
  owner_matches (Tasks.register task_name q this) tg owner.
Proof.
  intros Hnone. destruct tg as [|task_name'|]; simpl; try done.
  intros Hsome. rewrite lookup_insert_ne; [done | congruence].
Qed.

Lemma state_assigned_attach σ this v s o :
  Store.state_user_data σ !! State.addr_of s = None →
  state_assigned σ this v → state_assigned (attach s o σ) this v.
Proof.
  intros Hnone (p & owner & Hud & Hlt & Hsi & Hown).
  exists p, owner. simpl. split_and!; [| lia | | done].
  - rewrite lookup_insert_ne; [done | congruence].
  - rewrite lookup_insert_ne; [done | lia].
Qed.

Lemma state_assigned_attach_new_task σ this v s task_name :
  Store.state_user_data σ !! State.addr_of s = None →
  Tasks.name_to_task this !! task_name = None →
  state_assigned σ this v →
  state_assigned (attach_new_task s task_name σ)
                 (Tasks.register task_name (S (Store.brk σ)) this) v.
Proof.
  intros Hnone Hfree (p & owner & Hud & Hlt & Hsi & Hown).
  exists p, owner. simpl. split_and!; [| lia | |].
  - rewrite lookup_insert_ne; [done | congruence].
  - rewrite lookup_insert_ne; [done | lia].
  - by apply owner_matches_register.
Qed.

Lemma state_assigned_attach_transition σ this v tr g :
  state_assigned σ this v →
  state_assigned (attach_transition tr g σ) this v.
Proof.
  intros (p & owner & Hud & Hlt & Hsi & Hown).
  exists p, owner. simpl. split_and!; [done | lia | done | done].
Qed.

(** One turn of the loop keeps the invariant, or throws for one of the
    two reasons the loop body has. *)
Lemma visit_state_inv nts main idle vs this σ v :
  split_inv nts main idle vs this σ →
  match visit_state this v σ with
  | (σ', Ok this') =>
      split_inv nts main idle (vs ++ [v]) this' σ'
      ∧ Store.state_user_data σ !! visit_addr v = None
      ∧ visit_target v ≠ NoOrigin
      ∧ Store.state_user_data σ'
        = <[visit_addr v := Store.brk σ]> (Store.state_user_data σ)
      ∧ Store.transition_user_data σ' = Store.transition_user_data σ
      ∧ Store.transition_infos σ' = Store.transition_infos σ
  | (σ', Throw e) =>
      (e = logic_error "Precondition R4 failed"
       ∧ σ' = σ ∧ is_Some (Store.state_user_data σ !! visit_addr v))
      ∨ (e = logic_error "Precondition R3 failed"
         ∧ σ' = attach v.2 None σ
         ∧ Store.state_user_data σ !! visit_addr v = None
         ∧ visit_target v = NoOrigin)
  end.
Proof.
  intros [Hn Hmain Htl Hmt Hidle Hidle_lt Hidle_obj Hmap Htasks Hstates].
  destruct v as [[bn b] s].
  unfold visit_state, visit_addr, visit_target. simpl.
  rewrite split_state_eq.
  destruct (Store.state_user_data σ !! State.addr_of s) as [q|] eqn:Hud.
  { left. by eauto. }
  destruct (target_of bn b s) as [|task_name|] eqn:Htg.
  - (* the sentinel *)
    split_and!; try done.
    constructor; simpl; try done; try lia.
    + intros task_name p Hp. destruct (Hmap _ _ Hp) as (? & ? & ? & ?).
      split_and!; try done; lia.
    + intros v Hv. apply elem_of_app in Hv as [Hv | Hv].
      * by apply state_assigned_attach, Hstates.
      * apply list_elem_of_singleton in Hv as ->.
        exists (Store.brk σ), (Tasks.idle_worker_task this).
        unfold visit_addr, visit_target. simpl.
        rewrite !lookup_insert_eq, Htg. split_and!; try done; lia.
  - destruct (Tasks.name_to_task this !! task_name) as [p|] eqn:Hlook.
    + (* a task seen before *)
      split_and!; try done.
      constructor; simpl; try done; try lia.
      * intros task_name' p' Hp'.
        destruct (Hmap _ _ Hp') as (? & ? & ? & ?).
        split_and!; try done; lia.
      * intros v Hv. apply elem_of_app in Hv as [Hv | Hv].
        -- by apply state_assigned_attach, Hstates.
        -- apply list_elem_of_singleton in Hv as ->.
           exists (Store.brk σ), p.
           unfold visit_addr, visit_target. simpl.
           rewrite !lookup_insert_eq, Htg. split_and!; try done; lia.
    + (* a new task *)
      split_and!; try done.
      constructor; simpl; try done; try lia.
      * rewrite lookup_insert_ne; [done | lia].
      * intros task_name' p'. rewrite lookup_insert_Some.
        intros [[<- <-] | [Hne Hp']].
        -- rewrite lookup_insert_eq. split_and!; try done; try lia.
           apply elem_of_app. right. by apply list_elem_of_singleton.
        -- destruct (Hmap _ _ Hp') as (? & ? & ? & ?).
           split_and!; try done; try lia.
           ++ apply elem_of_app. by left.
           ++ rewrite lookup_insert_ne; [done | lia].
      * intros p' Hp'. apply elem_of_app in Hp' as [Hp' | Hp'].
        -- destruct (Htasks _ Hp') as [task_name' Hlook'].
           exists task_name'. rewrite lookup_insert_ne; [done | congruence].
        -- apply list_elem_of_singleton in Hp' as ->.
           exists task_name. by rewrite lookup_insert_eq.
      * intros v Hv. apply elem_of_app in Hv as [Hv | Hv].
        -- by apply state_assigned_attach_new_task, Hstates.
        -- apply list_elem_of_singleton in Hv as ->.
           exists (Store.brk σ), (S (Store.brk σ)).
           unfold visit_addr, visit_target. simpl.
           rewrite !lookup_insert_eq, Htg. simpl.
           rewrite lookup_insert_eq. split_and!; try done; lia.
  - right. by eauto.
Qed.

End partition.

(* ===================================================================== *)
(** ** The two scans of [compute_tasks] *)
(* ===================================================================== *)

Section scans.

Variable used_global_variables : Nts.t → Transition.t → Globals.t.

Implicit Types (σ : Store.t) (this : Tasks.t) (v : visit).

Lemma visit_state_main_nts_name this v σ σ' this' :
  visit_state this v σ = (σ', Ok this') →
  Tasks.main_nts_name this' = Tasks.main_nts_name this.
Proof.
  unfold visit_state. rewrite split_state_eq.
  repeat case_match; intros; simplify_eq; done.
Qed.

Lemma for_each_visit_main_nts_name vs this σ σ' this' :
  for_each visit_state vs this σ = (σ', Ok this') →
  Tasks.main_nts_name this' = Tasks.main_nts_name this.
Proof.
  revert this σ. induction vs as [|v vs IH]; intros this σ.
  - simpl. unfold ret. by intros [= _ ->].
  - rewrite for_each_cons.
    destruct (visit_state this v σ) as [σ1 [this1 | e]] eqn:Hv; [|done].
    intros Hrest. rewrite (IH _ _ Hrest).
    by eapply visit_state_main_nts_name.
Qed.

Lemma split_to_tasks_flat_aux main tl this σ :
  Tasks.main_nts_name this = main →
  for_each
    (λ acc bn,
       if bool_decide (BasicNts.name bn = Tasks.main_nts_name acc)
       then Tasks.split_to_tasks_bn bn false acc
       else Tasks.split_to_tasks_bn bn true acc) tl this σ
  = for_each visit_state (state_visits main tl) this σ.
Proof.
  unfold state_visits. revert this σ.
  induction tl as [|bn tl IH]; intros this σ Hmain; [done |].
  rewrite bind_cons, for_each_app, for_each_cons.
  assert (Hbn :
    (if bool_decide (BasicNts.name bn = Tasks.main_nts_name this)
     then Tasks.split_to_tasks_bn bn false this
     else Tasks.split_to_tasks_bn bn true this) σ
    = for_each visit_state
        ((λ s, (bn, negb (bool_decide (BasicNts.name bn = main)), s))
           <$> BasicNts.states bn) this σ).
  { rewrite for_each_fmap, Hmain. unfold Tasks.split_to_tasks_bn.
    by destruct (bool_decide (BasicNts.name bn = main)). }
  rewrite Hbn.
  destruct (for_each visit_state _ this σ) as [σ1 [this1 | e]] eqn:Hrun;
    [|done].
  apply IH. rewrite <- Hmain. by eapply for_each_visit_main_nts_name.
Qed.

(** The nested loops of [split_to_tasks()] as one scan. *)
Lemma split_to_tasks_flat this σ :
  Tasks.split_to_tasks this σ
  = for_each visit_state
      (state_visits (Tasks.main_nts_name this) (Tasks.toplevel_bnts this))
      this σ.
Proof. by apply split_to_tasks_flat_aux. Qed.

Lemma compute_transition_info_flat this σ :
  Tasks.compute_transition_info used_global_variables this σ
  = for_each (Tasks.transition_info used_global_variables)
      (transition_visits (Tasks.toplevel_bnts this)) this σ.
Proof. apply for_each_bind. Qed.

(** The scan of the states: on return every state met is assigned, on an
    exception the records of the states met before are in place. *)
Lemma split_scan_spec nts main idle vs this0 σ0 :
  split_inv nts main idle [] this0 σ0 →
  match for_each visit_state vs this0 σ0 with
  | (σ', Ok this') =>
      split_inv nts main idle vs this' σ'
      ∧ Store.transition_user_data σ' = Store.transition_user_data σ0
  | (σ', Throw e) =>
      ∃ pre v post,
        vs = pre ++ v :: post
        ∧ (∀ v', v' ∈ pre →
                 ∃ owner, state_recorded σ' (visit_addr v') (Some owner))
        ∧ ((e = logic_error "Precondition R4 failed"
            ∧ ∃ p, Store.state_user_data σ' !! visit_addr v = Some p)
           ∨ (e = logic_error "Precondition R3 failed"
              ∧ visit_target v = NoOrigin
              ∧ state_recorded σ' (visit_addr v) None
              ∧ Store.state_user_data σ0 !! visit_addr v = None))
  end.
Proof.
  intros Hinv0.
  pose (I := λ (pre : list visit) this σ,
          split_inv nts main idle pre this σ
          ∧ Store.transition_user_data σ = Store.transition_user_data σ0
          ∧ ∀ a, Store.state_user_data σ !! a = None →
                 Store.state_user_data σ0 !! a = None).
  pose (E := λ (pre : list visit) v e σ',
          (∀ v', v' ∈ pre →
                 ∃ owner, state_recorded σ' (visit_addr v') (Some owner))
          ∧ ((e = logic_error "Precondition R4 failed"
              ∧ ∃ p, Store.state_user_data σ' !! visit_addr v = Some p)
             ∨ (e = logic_error "Precondition R3 failed"
                ∧ visit_target v = NoOrigin
                ∧ state_recorded σ' (visit_addr v) None
                ∧ Store.state_user_data σ0 !! visit_addr v = None))).
  pose proof (for_each_rule visit_state vs I E) as Hrule.
  assert (Hrec : ∀ pre this σ v',
             split_inv nts main idle pre this σ → v' ∈ pre →
             ∃ owner, state_recorded σ (visit_addr v') (Some owner)).
  { intros pre this σ v' Hinv Hv'.
    destruct (si_states _ _ _ _ _ _ Hinv v' Hv')
      as (p & owner & ? & ? & ? & ?).
    exists owner, p. done. }
  unshelve epose proof (Hrule _ this0 σ0 _) as Hres.
  - intros pre v post this σ _ (Hinv & Htud & Hsub).
    pose proof (visit_state_inv _ _ _ _ _ _ v Hinv) as Hstep.
    destruct (visit_state this v σ) as [σ1 [this1 | e]].
    + destruct Hstep as (Hinv1 & Hnone & _ & Hsud & Htud1 & _).
      split_and!; [done | congruence |].
      intros a. rewrite Hsud. rewrite lookup_insert_None.
      intros [Ha _]. by apply Hsub.
    + destruct Hstep as [(-> & -> & [p Hp]) | (-> & -> & Hnone & Htg)].
      * split; [intros v' Hv'; by eapply Hrec | left; eauto].
      * split.
        -- intros v' Hv'.
           destruct (si_states _ _ _ _ _ _ Hinv v' Hv')
             as (p & owner & Hud & Hlt & Hsi & _).
           exists owner, p. simpl. split.
           ++ rewrite lookup_insert_ne; [done | ].
              unfold visit_addr in *. congruence.
           ++ rewrite lookup_insert_ne; [done | lia].
        -- right. split_and!; [done | done | | by apply Hsub].
           exists (Store.brk σ). unfold visit_addr. simpl.
           by rewrite !lookup_insert_eq.
  - by split_and!.
  - destruct (for_each visit_state vs this0 σ0) as [σ' [this' | e]].
    + destruct Hres as (? & ? & _). done.
    + destruct Hres as (pre & v & post & -> & HE & Hcase). eauto 10.
Qed.

(** The transition records leave the partition as it is. *)
Lemma split_inv_frame nts main idle vs this σ σ' :
  split_inv nts main idle vs this σ →
  Store.state_user_data σ' = Store.state_user_data σ →
  Store.state_infos σ' = Store.state_infos σ →
  Store.task_objs σ' = Store.task_objs σ →
  (Store.brk σ ≤ Store.brk σ')%nat →
  split_inv nts main idle vs this σ'.
Proof.
  intros [Hn Hmain Htl Hmt Hidle Hidle_lt Hidle_obj Hmap Htasks Hstates]
         Hsud Hsi Hto Hbrk.
  constructor; try done.
  - lia.
  - by rewrite Hto.
  - intros task_name p Hp. destruct (Hmap _ _ Hp) as (? & ? & ? & ?).
    rewrite Hto. split_and!; try done; lia.
  - intros v Hv. destruct (Hstates v Hv) as (p & owner & ? & ? & ? & ?).
    exists p, owner. rewrite Hsud, Hsi. split_and!; try done; lia.
Qed.

(** The scan of the transitions: every transition met gets the summary of
    the primitive; only [Q2] can be thrown. *)
Lemma transition_scan_spec trs this0 σ0 :
  match for_each (Tasks.transition_info used_global_variables)
                 trs this0 σ0 with
  | (σ', Ok this') =>
      this' = this0
      ∧ (∀ tr, tr ∈ trs →
               transition_recorded σ'
                 (used_global_variables (Tasks.n this0)) tr)
      ∧ Store.state_user_data σ' = Store.state_user_data σ0
      ∧ Store.state_infos σ' = Store.state_infos σ0
      ∧ Store.task_objs σ' = Store.task_objs σ0
      ∧ (Store.brk σ0 ≤ Store.brk σ')%nat
  | (σ', Throw e) =>
      e = logic_error "Precondition Q2 does not hold"
      ∧ Store.state_user_data σ' = Store.state_user_data σ0
      ∧ Store.state_infos σ' = Store.state_infos σ0
  end.
Proof.
  pose (I := λ (pre : list Transition.t) this σ,
          this = this0
          ∧ (∀ tr, tr ∈ pre →
                   transition_recorded σ
                     (used_global_variables (Tasks.n this0)) tr)
          ∧ Store.state_user_data σ = Store.state_user_data σ0
          ∧ Store.state_infos σ = Store.state_infos σ0
          ∧ Store.task_objs σ = Store.task_objs σ0
          ∧ (Store.brk σ0 ≤ Store.brk σ)%nat).
  pose (E := λ (pre : list Transition.t) (tr : Transition.t) e σ',
          e = logic_error "Precondition Q2 does not hold"
          ∧ Store.state_user_data σ' = Store.state_user_data σ0
          ∧ Store.state_infos σ' = Store.state_infos σ0).
  pose proof (for_each_rule (Tasks.transition_info used_global_variables)
                trs I E) as Hrule.
  unshelve epose proof (Hrule _ this0 σ0 _) as Hres.
  - intros pre tr post this σ _ (-> & Hrec & Hsud & Hsi & Hto & Hbrk).
    rewrite transition_info_eq.
    destruct (Store.transition_user_data σ !! Transition.addr_of tr)
      as [q|] eqn:Hud.
    + by split_and!.
    + split_and!; simpl; try done; [| lia].
      intros tr' Htr'. apply elem_of_app in Htr' as [Htr' | Htr'].
      * destruct (Hrec _ Htr') as (p & Hp & Hlt & Hti).
        exists p. simpl. split_and!; [| lia |].
        -- rewrite lookup_insert_ne; [done | congruence].
        -- rewrite lookup_insert_ne; [done | lia].
      * apply list_elem_of_singleton in Htr' as ->.
        exists (Store.brk σ). simpl.
        rewrite !lookup_insert_eq. split_and!; try done; lia.
  - split_and!; try done. intros tr Htr. by apply elem_of_nil in Htr.
  - destruct (for_each _ trs this0 σ0) as [σ' [this' | e]]; [done |].
    destruct Hres as (pre & tr & post & _ & HE). done.
Qed.

End scans.

(* ===================================================================== *)
(** ** [compute_tasks] as a whole *)
(* ===================================================================== *)

Section whole_pass.

Variable used_global_variables : Nts.t → Transition.t → Globals.t.

Implicit Types (σ : Store.t) (this ts : Tasks.t) (v : visit).

Lemma compute_tasks_eq nts main σ :
  Tasks.compute_tasks used_global_variables nts main σ
  = match for_each visit_state (state_visits main (Tasks.discover nts))
                   (builder_start nts main σ) (store_start σ) with
    | (σ2, Ok this3) =>
        for_each (Tasks.transition_info used_global_variables)
                 (transition_visits (Tasks.toplevel_bnts this3)) this3 σ2
    | (σ2, Throw e) => (σ2, Throw e)
    end.
Proof.
  unfold Tasks.compute_tasks, Tasks.ctor, bind, ret. simpl.
  rewrite split_to_tasks_flat. simpl.
  change (Tasks.calculate_toplevel_bnts _) with (builder_start nts main σ).
  destruct (for_each visit_state _ _ _) as [σ2 [this3 | e]]; [|done].
  rewrite compute_transition_info_flat.
  by destruct (for_each _ _ this3 σ2) as [σ3 [this4 | e]].
Qed.

Lemma split_inv_start nts main σ :
  split_inv nts main (Store.brk σ) []
            (builder_start nts main σ) (store_start σ).
Proof.
  constructor; simpl; try done.
  - lia.
  - by rewrite lookup_insert_eq.
  - intros p Hp. by apply elem_of_nil in Hp.
  - intros v Hv. by apply elem_of_nil in Hv.
Qed.

(** On return: the partition invariant holds for every state of every
    discovered unit and every transition carries the primitive's
    summary. *)
Lemma compute_tasks_returns nts main σ σ' ts :
  Tasks.compute_tasks used_global_variables nts main σ = (σ', Ok ts) →
  split_inv nts main (Store.brk σ)
            (state_visits main (Tasks.discover nts)) ts σ'
  ∧ ∀ tr, tr ∈ transition_visits (Tasks.discover nts) →
          transition_recorded σ' (used_global_variables nts) tr.
Proof.
  rewrite compute_tasks_eq.
  pose proof (split_scan_spec nts main (Store.brk σ)
                (state_visits main (Tasks.discover nts))
                _ _ (split_inv_start nts main σ)) as Hsplit.
  destruct (for_each visit_state _ _ _) as [σ2 [this3 | e]]; [|done].
  destruct Hsplit as [Hinv _].
  pose proof (transition_scan_spec used_global_variables
                (transition_visits (Tasks.toplevel_bnts this3)) this3 σ2)
    as Htrans.
  intros Hrun. rewrite Hrun in Htrans.
  destruct Htrans as (-> & Hrec & Hsud & Hsi & Hto & Hbrk).
  split.
  - by eapply split_inv_frame.
  - rewrite <- (si_toplevel _ _ _ _ _ _ Hinv), <- (si_n _ _ _ _ _ _ Hinv).
    done.
Qed.

(** On an exception: [Q2] from the scan of the transitions, or one of the
    two exceptions of the scan of the states, at some state. *)
Lemma compute_tasks_throws nts main σ σ' e :
  Tasks.compute_tasks used_global_variables nts main σ = (σ', Throw e) →
  e = logic_error "Precondition Q2 does not hold"
  ∨ ∃ pre v post,
      state_visits main (Tasks.discover nts) = pre ++ v :: post
      ∧ (∀ v', v' ∈ pre →
               ∃ owner, state_recorded σ' (visit_addr v') (Some owner))
      ∧ ((e = logic_error "Precondition R4 failed"
          ∧ ∃ p, Store.state_user_data σ' !! visit_addr v = Some p)
         ∨ (e = logic_error "Precondition R3 failed"
            ∧ visit_target v = NoOrigin
            ∧ state_recorded σ' (visit_addr v) None
            ∧ Store.state_user_data σ !! visit_addr v = None)).
Proof.
  rewrite compute_tasks_eq.
  pose proof (split_scan_spec nts main (Store.brk σ)
                (state_visits main (Tasks.discover nts))
                _ _ (split_inv_start nts main σ)) as Hsplit.
  destruct (for_each visit_state _ _ _) as [σ2 [this3 | e2]].
  - pose proof (transition_scan_spec used_global_variables
                  (transition_visits (Tasks.toplevel_bnts this3)) this3 σ2)
      as Htrans.
    intros Hrun. rewrite Hrun in Htrans. left. by destruct Htrans.
  - intros [= -> ->]. right. exact Hsplit.
Qed.

Lemma elem_of_state_visits main tl v :
  v ∈ state_visits main tl
  ↔ ∃ bn s, bn ∈ tl ∧ s ∈ BasicNts.states bn
            ∧ v = (bn, negb (bool_decide (BasicNts.name bn = main)), s).
Proof.
  unfold state_visits. rewrite list_elem_of_bind. split.
  - intros (bn & Hv & Hbn). apply list_elem_of_fmap in Hv as (s & -> & Hs).
    eauto.
  - intros (bn & s & Hbn & Hs & ->). exists bn. split; [|done].
    apply list_elem_of_fmap. eauto.
Qed.

End whole_pass.

(* ===================================================================== *)
(** ** Strings *)
(* ===================================================================== *)

Lemma find_None (c : ascii) (s : string) :
  find c s = None ↔ ¬ In c (list_ascii_of_string s).
Proof.
  induction s as [|c' s IH]; simpl; [tauto |].
  destruct (Ascii.eqb_spec c' c) as [-> | Hne].
  - split; [done | tauto].
  - destruct (find c s) as [k|]; simpl.
    + split; [done |]. intros Hnot.
      assert (Hs : ¬ In c (list_ascii_of_string s)) by tauto.
      by apply IH in Hs.
    + split; [|done]. intros _ [? | Hin]; [done |].
      by apply IH in Hin.
Qed.

Lemma find_first (c : ascii) (pre rest : string) :
  ¬ In c (list_ascii_of_string pre) →
  find c (pre +:+ String c rest) = Some (String.length pre).
Proof.
  induction pre as [|c' pre IH]; simpl; intros Hnot.
  - by rewrite Ascii.eqb_refl.
  - destruct (Ascii.eqb_spec c' c) as [-> | Hne]; [tauto |].
    rewrite IH; [done | tauto].
Qed.

Lemma substring_prefix (pre rest : string) :
  substring 0 (String.length pre) (pre +:+ rest) = pre.
Proof.
  induction pre as [|c pre IH]; simpl.
  - by destruct rest.
  - by rewrite IH.
Qed.

(** A string holding the separator splits at its first occurrence. *)
Lemma first_separator (s : string) :
  has_separator s →
  ∃ pre rest, s = pre +:+ String ":" rest ∧ ¬ has_separator pre.
Proof.
  unfold has_separator. induction s as [|c s IH]; simpl; [done |].
  destruct (Ascii.eqb_spec c ":") as [-> | Hne].
  - intros _. exists "", s. split; [done |]. simpl. tauto.
  - intros [? | Hin]; [done |].
    destruct (IH Hin) as (pre & rest & -> & Hpre).
    exists (String c pre), rest. split; [done |]. simpl. tauto.
Qed.

(** The partition rule on an origin of the form [task_name:rest], the
    separator not occurring in [task_name], and on one without separator. *)
Lemma target_of_origin (bn : BasicNts.t) (s : State.t) (origin : AnnotString.t) :
  find_annot_origin (State.annotations s) = Some origin →
  (∀ task_name rest,
      AnnotString.value origin = task_name +:+ String ":" rest →
      ¬ has_separator task_name →
      target_of bn true s = ToTask task_name)
  ∧ (¬ has_separator (AnnotString.value origin) →
     target_of bn true s = ToSentinel).
Proof.
  intros Horigin. unfold target_of. rewrite Horigin. split.
  - intros task_name rest -> Hsep.
    rewrite find_first by done. by rewrite substring_prefix.
  - intros Hsep. apply find_None in Hsep. by rewrite Hsep.
Qed.

Lemma target_of_NoOrigin (v : visit) :
  visit_target v = NoOrigin ↔ v.1.2 && negb (has_origin v.2) = true.
Proof.
  destruct v as [[bn b] s]. unfold visit_target, target_of, has_origin. simpl.
  destruct b; simpl; [|done].
  destruct (find_annot_origin (State.annotations s)) as [origin|]; [|done].
  by destruct (find ":" (AnnotString.value origin)).
Qed.

(* ===================================================================== *)
(** ** The failures of the pass against the expected ones *)
(* ===================================================================== *)

Section failures.

Variable used_global_variables : Nts.t → Transition.t → Globals.t.

Lemma split_scan_expected (vs : list visit) (this : Tasks.t) (σ : Store.t) :
  match for_each visit_state vs this σ with
  | (σ', Ok _) =>
      expected_states (dom (Store.state_user_data σ)) vs
      = inr (dom (Store.state_user_data σ'))
      ∧ Store.transition_user_data σ' = Store.transition_user_data σ
  | (σ', Throw e) =>
      ∃ f, failure_of e = Some f
           ∧ expected_states (dom (Store.state_user_data σ)) vs = inl f
  end.
Proof.
  revert this σ. induction vs as [|v vs IH]; intros this σ; [done |].
  rewrite for_each_cons. simpl.
  pose proof (target_of_NoOrigin v) as Htg.
  unfold visit_target, visit_addr in *.
  change (visit_state this v σ)
    with (Tasks.split_state v.1.1 v.1.2 this v.2 σ).
  rewrite split_state_eq.
  destruct (Store.state_user_data σ !! State.addr_of v.2) as [q|] eqn:Hud.
  { rewrite bool_decide_eq_true_2; [by eauto |].
    apply elem_of_dom. by eauto. }
  rewrite bool_decide_eq_false_2 by (by apply not_elem_of_dom).
  assert (Hstep : ∀ σ1 this1,
    Store.state_user_data σ1
    = <[State.addr_of v.2 := Store.brk σ]> (Store.state_user_data σ) →
    Store.transition_user_data σ1 = Store.transition_user_data σ →
    v.1.2 && negb (has_origin v.2) = false →
    match for_each visit_state vs this1 σ1 with
    | (σ', Ok _) =>
        (if v.1.2 && negb (has_origin v.2) then inl MissingOriginMetadata
         else expected_states
                ({[State.addr_of v.2]} ∪ dom (Store.state_user_data σ)) vs)
        = inr (dom (Store.state_user_data σ'))
        ∧ Store.transition_user_data σ' = Store.transition_user_data σ
    | (σ', Throw e) =>
        ∃ f, failure_of e = Some f
             ∧ (if v.1.2 && negb (has_origin v.2)
                then inl MissingOriginMetadata
                else expected_states
                       ({[State.addr_of v.2]}
                          ∪ dom (Store.state_user_data σ)) vs)
               = inl f
    end).
  { intros σ1 this1 Hsud Htud ->.
    specialize (IH this1 σ1). rewrite Hsud, dom_insert_L in IH.
    destruct (for_each visit_state vs this1 σ1) as [σ' [this' | e]];
      simpl; [|done].
    destruct IH as [-> ->]. done. }
  destruct (target_of v.1.1 v.1.2 v.2) as [|task_name|] eqn:Htarget.
  - apply Hstep; [done | done |].
    apply not_true_is_false. intros Hb. by apply Htg in Hb.
  - assert (Hb : v.1.2 && negb (has_origin v.2) = false).
    { apply not_true_is_false. intros Hb. by apply Htg in Hb. }
    destruct (Tasks.name_to_task this !! task_name); by apply Hstep.
  - destruct Htg as [Htg _]. rewrite (Htg eq_refl).
    by exists MissingOriginMetadata.
Qed.

Lemma transition_scan_expected (trs : list Transition.t) (this : Tasks.t)
    (σ : Store.t) :
  match for_each (Tasks.transition_info used_global_variables)
                 trs this σ with
  | (σ', Ok _) =>
      expected_transitions (dom (Store.transition_user_data σ)) trs = None
  | (σ', Throw e) =>
      failure_of e = Some DoubleInitialization
      ∧ expected_transitions (dom (Store.transition_user_data σ)) trs
        = Some DoubleInitialization
  end.
Proof.
  revert this σ. induction trs as [|tr trs IH]; intros this σ; [done |].
  rewrite for_each_cons, transition_info_eq. simpl.
  destruct (Store.transition_user_data σ !! Transition.addr_of tr)
    as [q|] eqn:Hud.
  { rewrite bool_decide_eq_true_2; [done |]. apply elem_of_dom. by eauto. }
  rewrite bool_decide_eq_false_2 by (by apply not_elem_of_dom).
  specialize (IH this (attach_transition tr
                         (used_global_variables (Tasks.n this) tr) σ)).
  simpl in IH. by rewrite dom_insert_L in IH.
Qed.

(** The outcome of the pass is the one the specification expects. *)
Lemma compute_tasks_expected (nts : Nts.t) (main : string) (σ : Store.t) :
  match (Tasks.compute_tasks used_global_variables nts main σ).2 with
  | Ok _ => expected_failure σ nts main = None
  | Throw e =>
      ∃ f, failure_of e = Some f ∧ expected_failure σ nts main = Some f
  end.
Proof.
  rewrite compute_tasks_eq. unfold expected_failure.
  pose proof (split_scan_expected (state_visits main (Tasks.discover nts))
                (builder_start nts main σ) (store_start σ)) as Hsplit.
  pose proof (split_scan_spec nts main (Store.brk σ)
                (state_visits main (Tasks.discover nts))
                _ _ (split_inv_start nts main σ)) as Hinv.
  destruct (for_each visit_state _ _ _) as [σ2 [this3 | e]]; simpl in *.
  - destruct Hsplit as [-> Htud]. destruct Hinv as [Hinv _].
    rewrite (si_toplevel _ _ _ _ _ _ Hinv).
    pose proof (transition_scan_expected
                  (transition_visits (Tasks.discover nts)) this3 σ2)
      as Htrans.
    rewrite Htud in Htrans.
    destruct (for_each _ _ this3 σ2) as [σ3 [this4 | e]]; simpl.
    + done.
    + destruct Htrans as [? ->]. by exists DoubleInitialization.
  - destruct Hsplit as (f & Hf & ->). by exists f.
Qed.

Lemma expected_states_clean (vs : list visit) (carried : gset addr) :
  (∀ v, v ∈ vs →
        (visit_addr v ∉ carried) ∧ (v.1.2 = true → has_origin v.2 = true)) →
  NoDup (visit_addr <$> vs) →
  ∃ carried', expected_states carried vs = inr carried'.
Proof.
  revert carried. induction vs as [|v vs IH]; intros carried Hclean Hdup.
  - by eexists.
  - simpl. rewrite fmap_cons in Hdup. apply NoDup_cons in Hdup as [Hv Hdup].
    destruct (Hclean v) as [Hfree Horigin]; [by left |].
    rewrite bool_decide_eq_false_2 by done.
    assert (Hrest : ∀ v', v' ∈ vs →
              (visit_addr v' ∉ {[visit_addr v]} ∪ carried)
              ∧ (v'.1.2 = true → has_origin v'.2 = true)).
    { intros v' Hv'. destruct (Hclean v') as [? ?]; [by right |].
      split; [|done]. apply not_elem_of_union. split; [|done].
      apply not_elem_of_singleton. intros Heq. apply Hv.
      rewrite <- Heq. by apply list_elem_of_fmap_2. }
    destruct (v.1.2) eqn:Hb; simpl.
    + rewrite Horigin by done. simpl. by apply IH.
    + by apply IH.
Qed.

Lemma expected_transitions_clean (trs : list Transition.t)
    (carried : gset addr) :
  (∀ tr, tr ∈ trs → Transition.addr_of tr ∉ carried) →
  NoDup (Transition.addr_of <$> trs) →
  expected_transitions carried trs = None.
Proof.
  revert carried. induction trs as [|tr trs IH]; intros carried Hclean Hdup;
    [done |].
  simpl. rewrite fmap_cons in Hdup. apply NoDup_cons in Hdup as [Htr Hdup].
  rewrite bool_decide_eq_false_2 by (apply Hclean; by left).
  apply IH; [|done].
  intros tr' Htr'. apply not_elem_of_union. split; [|apply Hclean; by right].
  apply not_elem_of_singleton. intros Heq. apply Htr.
  rewrite <- Heq. by apply list_elem_of_fmap_2.
Qed.

Lemma well_formed_expected (σ : Store.t) (nts : Nts.t) (main : string) :
  well_formed σ nts main → expected_failure σ nts main = None.
Proof.
  intros (Hstates & Htrans & Hdup_s & Hdup_t). unfold expected_failure.
  destruct (expected_states_clean
              (state_visits main (Tasks.discover nts))
              (dom (Store.state_user_data σ))) as [carried' ->]; [|done|].
  - intros v Hv. destruct (Hstates v Hv) as [Hnone Horigin].
    split; [by apply not_elem_of_dom | done].
  - apply expected_transitions_clean; [|done].
    intros tr Htr. apply not_elem_of_dom. by apply Htrans.
Qed.

End failures.

(* ===================================================================== *)
(** ** Unions of many summaries and the transitive summaries *)
(* ===================================================================== *)

Section transitive.

Implicit Types (σ : Store.t) (this : Tasks.t) (g acc : Globals.t).

Lemma fold_union_reads (l : list Globals.t) acc (v : addr) :
  v ∈ Globals.reads (fold_left Globals.union_with l acc)
  ↔ v ∈ Globals.reads acc ∨ ∃ g, g ∈ l ∧ v ∈ Globals.reads g.
Proof.
  revert acc. induction l as [|g l IH]; intros acc; simpl.
  - split; [by left | intros [? | (g & Hg & _)]; [done |]].
    by apply elem_of_nil in Hg.
  - rewrite IH. simpl. rewrite elem_of_union. split.
    + intros [[? | ?] | (g' & Hg' & ?)]; [by left | |].
      * right. exists g. split; [by left | done].
      * right. exists g'. split; [by right | done].
    + intros [? | (g' & Hg' & ?)]; [by left; left |].
      apply elem_of_cons in Hg' as [-> | Hg']; [by left; right |].
      right. by exists g'.
Qed.

Lemma fold_union_contains (l : list Globals.t) acc (v : addr) :
  GlobalWrites.contains
    (Globals.writes (fold_left Globals.union_with l acc)) v = true
  ↔ GlobalWrites.contains (Globals.writes acc) v = true
    ∨ ∃ g, g ∈ l ∧ GlobalWrites.contains (Globals.writes g) v = true.
Proof.
  revert acc. induction l as [|g l IH]; intros acc; simpl.
  - split; [by left | intros [? | (g & Hg & _)]; [done |]].
    by apply elem_of_nil in Hg.
  - rewrite IH. simpl.
    rewrite GlobalWrites_contains_union, orb_true_iff. split.
    + intros [[? | ?] | (g' & Hg' & ?)]; [by left | |].
      * right. exists g. split; [by left | done].
      * right. exists g'. split; [by right | done].
    + intros [? | (g' & Hg' & ?)]; [by left; left |].
      apply elem_of_cons in Hg' as [-> | Hg']; [by left; right |].
      right. by exists g'.
Qed.

Lemma union_all_covers (l : list Globals.t) g :
  g ∈ l → Globals.covers (Tasks.union_all l) g.
Proof.
  intros Hg. split.
  - intros v Hv. apply fold_union_reads. right. by exists g.
  - intros v Hv. apply fold_union_contains. right. by exists g.
Qed.

Lemma union_all_new (l : list Globals.t) :
  (∀ g, g ∈ l → g = Globals.new) → Tasks.union_all l = Globals.new.
Proof.
  unfold Tasks.union_all. induction l as [|g l IH]; intros Hall; [done |].
  simpl. rewrite (Hall g) by (by left).
  apply IH. intros g' Hg'. apply Hall. by right.
Qed.

Lemma direct_of_with_transitive p g σ q :
  Tasks.direct_of (with_transitive p g σ) q = Tasks.direct_of σ q.
Proof.
  unfold Tasks.direct_of, with_transitive. simpl.
  destruct (decide (p = q)) as [-> | Hne].
  - rewrite lookup_alter_eq. by destruct (Store.task_objs σ !! q).
  - by rewrite lookup_alter_ne.
Qed.

(** The pass over the tasks: it always returns, leaves the direct
    summaries alone and gives every task of the list the same union. *)
Lemma compute_transitive_globals_spec this σ :
  ∃ σ',
    Tasks.compute_transitive_globals this σ = (σ', Ok this)
    ∧ (∀ q, Tasks.direct_of σ' q = Tasks.direct_of σ q)
    ∧ ∀ p task,
        p ∈ Tasks.tasks this → Store.task_objs σ' !! p = Some task →
        Task.transitive_global task
        = Tasks.union_all (Tasks.direct_of σ <$> Tasks.tasks this).
Proof.
  unfold Tasks.compute_transitive_globals.
  set (body := λ (acc : Tasks.t) (p : addr),
         do g <- (λ σ, (σ, Ok (Tasks.union_all
                                 (Tasks.direct_of σ <$> Tasks.tasks acc))));
         run set_Task_transitive_global p g; ret acc).
  set (G := Tasks.union_all (Tasks.direct_of σ <$> Tasks.tasks this)).
  pose (I := λ (pre : list addr) (acc : Tasks.t) σ1,
          acc = this
          ∧ (∀ q, Tasks.direct_of σ1 q = Tasks.direct_of σ q)
          ∧ ∀ p task, p ∈ pre → Store.task_objs σ1 !! p = Some task →
                      Task.transitive_global task = G).
  pose proof (for_each_rule body (Tasks.tasks this) I (λ _ _ _ _, False))
    as Hrule.
  unshelve epose proof (Hrule _ this σ _) as Hres.
  - intros pre p post acc σ1 _ (-> & Hdirect & Htrans).
    assert (Hbody : body this p σ1 = (with_transitive p G σ1, Ok this)).
    { assert (Heq : Tasks.direct_of σ1 <$> Tasks.tasks this
                    = Tasks.direct_of σ <$> Tasks.tasks this).
      { apply list_fmap_ext. intros i q _. apply Hdirect. }
      unfold body, bind, ret, with_transitive, G. simpl.
      by rewrite Heq. }
    rewrite Hbody. split_and!; [done | |].
    + intros q. by rewrite direct_of_with_transitive.
    + intros q task Hq. unfold with_transitive. simpl.
      destruct (decide (p = q)) as [-> | Hne].
      * rewrite lookup_alter_eq.
        destruct (Store.task_objs σ1 !! q); [|done].
        by intros [= <-].
      * rewrite lookup_alter_ne by done.
        apply elem_of_app in Hq as [Hq | Hq]; [by apply Htrans |].
        by apply list_elem_of_singleton in Hq.
  - split_and!; [done | done |]. intros p task Hp.
    by apply elem_of_nil in Hp.
  - destruct (for_each body (Tasks.tasks this) this σ) as [σ' [acc | e]].
    + destruct Hres as (-> & Hdirect & Htrans). by exists σ'.
    + by destruct Hres as (? & ? & ? & _ & []).
Qed.

End transitive.

(* ===================================================================== *)
(** ** The effect summaries: union, collision, invariant *)
(* ===================================================================== *)

Section summaries.

Implicit Types (w o : GlobalWrites.t) (a b c : Globals.t).

Lemma Globals_eq a b :
  Globals.reads a = Globals.reads b → Globals.writes a = Globals.writes b →
  a = b.
Proof. destruct a, b; simpl; by intros -> ->. Qed.

(** Off the invariant the union of write summaries does not commute: the
    left operand keeps a stale set next to its flag. *)
Lemma GlobalWrites_union_needs_I1 :
  GlobalWrites.union_with (GlobalWrites.mk {[ 1 ]} true) GlobalWrites.new
  ≠ GlobalWrites.union_with GlobalWrites.new (GlobalWrites.mk {[ 1 ]} true).
Proof. vm_compute. discriminate. Qed.

Lemma meets_spec (s : gset addr) w :
  Globals.meets s w = true
  ↔ ∃ v, v ∈ s ∧ GlobalWrites.contains w v = true.
Proof.
  unfold Globals.meets, GlobalWrites.contains.
  destruct (GlobalWrites.everything w).
  - rewrite negb_true_iff, bool_decide_eq_false. split.
    + intros Hne. apply set_choose_L in Hne as [v Hv]. by exists v.
    + intros (v & Hv & _) ->. by apply not_elem_of_empty in Hv.
  - rewrite negb_true_iff, bool_decide_eq_false. split.
    + intros Hne. apply set_choose_L in Hne as [v Hv].
      apply elem_of_intersection in Hv as [? ?].
      exists v. split; [done |]. by apply bool_decide_eq_true.
    + intros (v & Hv & Hw) Hempty. apply bool_decide_eq_true in Hw.
      assert (Hin : v ∈ s ∩ GlobalWrites.vars w)
        by (by apply elem_of_intersection).
      rewrite Hempty in Hin. by apply not_elem_of_empty in Hin.
Qed.

Lemma writes_meet_spec w o :
  Globals.writes_meet w o = true
  ↔ ∃ v, GlobalWrites.contains w v = true
         ∧ GlobalWrites.contains o v = true.
Proof.
  unfold Globals.writes_meet.
  destruct (GlobalWrites.everything w) eqn:Hw.
  - destruct (GlobalWrites.everything o) eqn:Ho.
    + split; [|done]. intros _. exists 0.
      unfold GlobalWrites.contains. by rewrite Hw, Ho.
    + rewrite negb_true_iff, bool_decide_eq_false. split.
      * intros Hne. apply set_choose_L in Hne as [v Hv]. exists v.
        unfold GlobalWrites.contains. rewrite Hw, Ho.
        split; [done |]. by apply bool_decide_eq_true.
      * intros (v & _ & Hv) Hempty. unfold GlobalWrites.contains in Hv.
        rewrite Ho in Hv. apply bool_decide_eq_true in Hv.
        rewrite Hempty in Hv. by apply not_elem_of_empty in Hv.
  - rewrite meets_spec. split.
    + intros (v & Hv & Ho). exists v. split; [|done].
      unfold GlobalWrites.contains. rewrite Hw.
      by apply bool_decide_eq_true.
    + intros (v & Hv & Ho). exists v. split; [|done].
      unfold GlobalWrites.contains in Hv. rewrite Hw in Hv.
      by apply bool_decide_eq_true in Hv.
Qed.

Lemma writes_meet_comm w o :
  Globals.writes_meet w o = Globals.writes_meet o w.
Proof.
  apply eq_true_iff_eq. rewrite !writes_meet_spec.
  split; intros (v & ? & ?); by exists v.
Qed.

Lemma may_collide_with_spec a b :
  Globals.may_collide_with a b = true ↔ ∃ v, Globals.collision_on a b v.
Proof.
  unfold Globals.may_collide_with, Globals.collision_on.
  rewrite !orb_true_iff, !meets_spec, writes_meet_spec. split.
  - intros [[(v & ? & ?) | (v & ? & ?)] | (v & ? & ?)]; exists v; tauto.
  - intros (v & [[? ?] | [[? ?] | [? ?]]]).
    + left; left. by exists v.
    + left; right. by exists v.
    + right. by exists v.
Qed.

End summaries.

(** C3: the union of effect summaries (reads and writes taken component by
    component) is commutative on summaries satisfying the invariant I1 of the
    write summary, associative and idempotent; a union with a universal
    write summary on either side is universal; the union of two exact write
    summaries is the exact summary of the union of their sets. *)
Theorem union_with_laws (a b c : Globals.t) :
  (GlobalWrites.I1 (Globals.writes a) → GlobalWrites.I1 (Globals.writes b) →
   Globals.union_with a b = Globals.union_with b a)
  ∧ Globals.union_with (Globals.union_with a b) c
    = Globals.union_with a (Globals.union_with b c)
  ∧ Globals.union_with a a = a
  ∧ (GlobalWrites.everything (Globals.writes b) = true →
     GlobalWrites.everything (Globals.writes (Globals.union_with a b)) = true
     ∧ GlobalWrites.everything (Globals.writes (Globals.union_with b a)) = true)
  ∧ (GlobalWrites.everything (Globals.writes a) = false →
     GlobalWrites.everything (Globals.writes b) = false →
     Globals.writes (Globals.union_with a b)
     = GlobalWrites.mk (GlobalWrites.vars (Globals.writes a)
                          ∪ GlobalWrites.vars (Globals.writes b)) false)
  ∧ Globals.reads (Globals.union_with a b) = Globals.reads a ∪ Globals.reads b.
Proof.
  split_and!.
  - intros Ha Hb. apply Globals_eq; simpl.
    + apply (comm_L (∪)).
    + by apply GlobalWrites_union_comm.
  - apply Globals_eq; simpl.
    + by rewrite (assoc_L (∪)).
    + apply GlobalWrites_union_assoc.
  - apply Globals_eq; simpl.
    + apply (idemp_L (∪)).
    + apply GlobalWrites_union_idemp.
  - intros Hb. simpl. split.
    + by apply GlobalWrites_union_everything_r.
    + by rewrite GlobalWrites_union_everything_l.
  - intros Ha Hb. simpl.
    destruct (Globals.writes a) as [s1 e1], (Globals.writes b) as [s2 e2].
    simpl in *. subst. apply GlobalWrites_union_exact.
  - done.
Qed.

Lemma union_with_laws_witness :
  Globals.union_with
    (Globals.mk {[ 7 ]} (GlobalWrites.mk {[ 8 ]} false))
    (Globals.mk {[ 9 ]} (GlobalWrites.mk ∅ true))
  = Globals.union_with
      (Globals.mk {[ 9 ]} (GlobalWrites.mk ∅ true))
      (Globals.mk {[ 7 ]} (GlobalWrites.mk {[ 8 ]} false)).
Proof.
  apply (union_with_laws
           (Globals.mk {[ 7 ]} (GlobalWrites.mk {[ 8 ]} false))
           (Globals.mk {[ 9 ]} (GlobalWrites.mk ∅ true))
           Globals.new).
  - unfold GlobalWrites.I1. simpl. discriminate.
  - unfold GlobalWrites.I1. simpl. reflexivity.
Defined.

(** C4: the collision predicate is commutative, and it holds exactly when
    some global variable is read or written by one summary and written by
    the other, a universal write summary containing every variable: a
    universal write collides with any non-empty reads or writes of the other
    side and with another universal write. *)
Theorem may_collide_with_characterisation (a b : Globals.t) :
  Globals.may_collide_with a b = Globals.may_collide_with b a
  ∧ (Globals.may_collide_with a b = true ↔ ∃ v, Globals.collision_on a b v)
  ∧ (GlobalWrites.everything (Globals.writes a) = true →
     (Globals.may_collide_with a b = true
      ↔ Globals.reads b ≠ ∅
        ∨ GlobalWrites.vars (Globals.writes b) ≠ ∅
        ∨ GlobalWrites.everything (Globals.writes b) = true)).
Proof.
  split_and!.
  - unfold Globals.may_collide_with.
    rewrite (writes_meet_comm (Globals.writes a) (Globals.writes b)).
    f_equal. apply orb_comm.
  - apply may_collide_with_spec.
  - intros Ha. unfold Globals.may_collide_with, Globals.writes_meet.
    unfold Globals.meets at 2. rewrite Ha.
    rewrite !orb_true_iff, negb_true_iff, bool_decide_eq_false.
    destruct (GlobalWrites.everything (Globals.writes b)) eqn:Hb.
    + split; [intros _; by right; right | intros _; by right].
    + rewrite negb_true_iff, bool_decide_eq_false. split.
      * intros [[Hm | ?] | ?]; [| by left | by right; left].
        apply meets_spec in Hm as (v & _ & Hv).
        unfold GlobalWrites.contains in Hv. rewrite Hb in Hv.
        apply bool_decide_eq_true in Hv. right; left.
        intros Hempty. rewrite Hempty in Hv.
        by apply not_elem_of_empty in Hv.
      * intros [? | [? | ?]]; [by left; right | by right | done].
Qed.

Lemma may_collide_with_characterisation_witness :
  Globals.may_collide_with
    (Globals.mk ∅ (GlobalWrites.mk ∅ true))
    (Globals.mk {[ 7 ]} GlobalWrites.new) = true.
Proof.
  apply (may_collide_with_characterisation
           (Globals.mk ∅ (GlobalWrites.mk ∅ true))
           (Globals.mk {[ 7 ]} GlobalWrites.new)).
  - reflexivity.
  - left. simpl. intros Hempty.
    assert (Hin : 7 ∈ ({[ 7 ]} : gset nat)) by (by apply elem_of_singleton).
    rewrite Hempty in Hin. by apply not_elem_of_empty in Hin.
Defined.

(** C6: the invariant of the write summary (the universal flag is set only
    with an empty set of variables) holds of a constructed summary; insert,
    insert_everything, union_with and clear give a summary satisfying it
    whenever the summary they are applied to satisfies it. *)
Theorem write_summary_invariant (w o : GlobalWrites.t) (v : addr) :
  GlobalWrites.I1 GlobalWrites.new
  ∧ GlobalWrites.I1 (GlobalWrites.insert_everything w)
  ∧ GlobalWrites.I1 (GlobalWrites.clear w)
  ∧ (GlobalWrites.I1 w → GlobalWrites.I1 (GlobalWrites.insert w v))
  ∧ (GlobalWrites.I1 w → GlobalWrites.I1 (GlobalWrites.union_with w o)).
Proof.
  split_and!; try done.
  - unfold GlobalWrites.I1, GlobalWrites.insert.
    destruct (GlobalWrites.everything w) eqn:Hw; simpl; intros H.
    + intros _. by apply H.
    + discriminate.
  - apply GlobalWrites_union_I1.
Qed.

Lemma write_summary_invariant_witness :
  GlobalWrites.I1
    (GlobalWrites.union_with (GlobalWrites.mk {[ 8 ]} false)
                             (GlobalWrites.mk ∅ true)).
Proof.
  apply (write_summary_invariant
           (GlobalWrites.mk {[ 8 ]} false) (GlobalWrites.mk ∅ true) 0).
  unfold GlobalWrites.I1. simpl. discriminate.
Defined.

(* ===================================================================== *)
(** ** What [compute_tasks] guarantees *)
(* ===================================================================== *)

Section guarantees.

Variable used_global_variables : Nts.t → Transition.t → Globals.t.

Implicit Types (σ : Store.t) (ts : Tasks.t).

(** Every state of every discovered unit is assigned as its target asks. *)
Lemma compute_tasks_state_assigned nts main σ σ' ts bn s :
  Tasks.compute_tasks used_global_variables nts main σ = (σ', Ok ts) →
  bn ∈ Tasks.discover nts → s ∈ BasicNts.states bn →
  state_assigned σ' ts
    (bn, negb (bool_decide (BasicNts.name bn = main)), s).
Proof.
  intros Hrun Hbn Hs.
  destruct (compute_tasks_returns _ _ _ _ _ _ Hrun) as [Hinv _].
  apply (si_states _ _ _ _ _ _ Hinv).
  apply elem_of_state_visits. by exists bn, s.
Qed.

(** Every task of the returned list is registered under its name and is
    as its constructor left it: both summaries empty. *)
Lemma compute_tasks_tasks_untouched nts main σ σ' ts p :
  Tasks.compute_tasks used_global_variables nts main σ = (σ', Ok ts) →
  p ∈ Tasks.tasks ts →
  ∃ task_name,
    Tasks.name_to_task ts !! task_name = Some p
    ∧ Store.task_objs σ' !! p = Some (Task.new task_name).
Proof.
  intros Hrun Hp.
  destruct (compute_tasks_returns _ _ _ _ _ _ Hrun) as [Hinv _].
  destruct (si_tasks _ _ _ _ _ _ Hinv p Hp) as [task_name Hlook].
  exists task_name. split; [done |].
  by destruct (si_map _ _ _ _ _ _ Hinv _ _ Hlook) as (_ & _ & _ & ?).
Qed.

(** The postconditions R1 and R2 of the header: on return every state of a
    discovered unit carries a record whose owner is a registered task or the
    sentinel, and every transition carries the summary of the primitive. *)
Lemma compute_tasks_R1_R2 nts main σ σ' ts bn :
  Tasks.compute_tasks used_global_variables nts main σ = (σ', Ok ts) →
  bn ∈ Tasks.discover nts →
  (∀ s, s ∈ BasicNts.states bn →
        ∃ owner,
          state_recorded σ' (State.addr_of s) (Some owner)
          ∧ (owner = Tasks.idle_worker_task ts
             ∨ ∃ task_name, Tasks.name_to_task ts !! task_name = Some owner))
  ∧ (∀ tr, tr ∈ BasicNts.transitions bn →
           ∃ p, Store.transition_user_data σ' !! Transition.addr_of tr = Some p
                ∧ Store.transition_infos σ' !! p
                  = Some (TransitionInfo.mk (Transition.addr_of tr)
                            (used_global_variables nts tr))).
Proof.
  intros Hrun Hbn. split.
  - intros s Hs.
    destruct (compute_tasks_state_assigned _ _ _ _ _ _ _ Hrun Hbn Hs)
      as (q & owner & Hud & _ & Hsi & Hown).
    exists owner. split; [by exists q |].
    unfold visit_target in Hown.
    destruct (target_of _ _ _) as [|task_name|]; simpl in Hown;
      [by left | right; by exists task_name | done].
  - intros tr Htr.
    destruct (compute_tasks_returns _ _ _ _ _ _ Hrun) as [_ Hrec].
    destruct (Hrec tr) as (p & Hp & _ & Hti).
    + unfold transition_visits. apply list_elem_of_bind. by exists bn.
    + by exists p.
Qed.

End guarantees.

(** C5: in by-origin-annotation mode (a discovered unit other than the main
    one), a state whose origin string holds the separator is assigned to the
    task registered under the portion before the first separator: the
    string splits as [task_name:rest] with no separator in [task_name], and
    for every such split the record of the state points to the task of that
    name; a state whose origin holds no separator is assigned to the
    sentinel task. *)
Theorem origin_partition
    (used_global_variables : Nts.t → Transition.t → Globals.t)
    (nts : Nts.t) (main : string) (σ σ' : Store.t) (ts : Tasks.t)
    (bn : BasicNts.t) (s : State.t) (origin : AnnotString.t) :
  Tasks.compute_tasks used_global_variables nts main σ = (σ', Ok ts) →
  bn ∈ Tasks.discover nts → BasicNts.name bn ≠ main →
  s ∈ BasicNts.states bn →
  find_annot_origin (State.annotations s) = Some origin →
  (has_separator (AnnotString.value origin) →
   ∃ task_name rest,
     AnnotString.value origin = task_name +:+ String ":" rest
     ∧ ¬ has_separator task_name)
  ∧ (∀ task_name rest,
        AnnotString.value origin = task_name +:+ String ":" rest →
        ¬ has_separator task_name →
        ∃ p task,
          state_recorded σ' (State.addr_of s) (Some p)
          ∧ Tasks.name_to_task ts !! task_name = Some p
          ∧ p ∈ Tasks.tasks ts
          ∧ Store.task_objs σ' !! p = Some task
          ∧ Task.name task = task_name)
  ∧ (¬ has_separator (AnnotString.value origin) →
     state_recorded σ' (State.addr_of s) (Some (Tasks.idle_worker_task ts))).
Proof.
  intros Hrun Hbn Hname Hs Horigin.
  pose proof (compute_tasks_state_assigned _ _ _ _ _ _ _ _ Hrun Hbn Hs)
    as (q & owner & Hud & _ & Hsi & Hown).
  destruct (compute_tasks_returns _ _ _ _ _ _ Hrun) as [Hinv _].
  rewrite bool_decide_eq_false_2 in Hown by done.
  unfold visit_target, visit_addr in *. cbn [fst snd negb] in *.
  destruct (target_of_origin bn s origin Horigin) as [Htask Hsent].
  split_and!.
  - apply first_separator.
  - intros task_name rest Hvalue Hsep.
    rewrite (Htask task_name rest Hvalue Hsep) in Hown. simpl in Hown.
    destruct (si_map _ _ _ _ _ _ Hinv _ _ Hown) as (_ & _ & Hin & Hobj).
    exists owner, (Task.new task_name). split_and!; try done.
    by exists q.
  - intros Hsep. rewrite (Hsent Hsep) in Hown. simpl in Hown. subst owner.
    by exists q.
Qed.

Lemma origin_partition_witness :
  (∃ p task,
      state_recorded (Demo.compute Demo.nts).1 2 (Some p)
      ∧ Tasks.name_to_task (Demo.result Demo.nts) !! "worker" = Some p
      ∧ p ∈ Tasks.tasks (Demo.result Demo.nts)
      ∧ Store.task_objs (Demo.compute Demo.nts).1 !! p = Some task
      ∧ Task.name task = "worker")
  ∧ state_recorded (Demo.compute Demo.nts).1 3
      (Some (Tasks.idle_worker_task (Demo.result Demo.nts))).
Proof.
  split.
  - apply (origin_partition Demo.used_global_variables Demo.nts "main"
             Store.empty (Demo.compute Demo.nts).1 (Demo.result Demo.nts)
             Demo.thread_unit Demo.worker_1
             (AnnotString.mk "origin" "worker:3:label")) with (rest := "3:label").
    + vm_compute. reflexivity.
    + vm_compute. apply list_elem_of_further, list_elem_of_here.
    + vm_compute. discriminate.
    + apply list_elem_of_here.
    + reflexivity.
    + reflexivity.
    + unfold has_separator. simpl. intuition discriminate.
  - apply (origin_partition Demo.used_global_variables Demo.nts "main"
             Store.empty (Demo.compute Demo.nts).1 (Demo.result Demo.nts)
             Demo.thread_unit Demo.running_1
             (AnnotString.mk "origin" "s_running_1")).
    + vm_compute. reflexivity.
    + vm_compute. apply list_elem_of_further, list_elem_of_here.
    + vm_compute. discriminate.
    + apply list_elem_of_further, list_elem_of_here.
    + reflexivity.
    + unfold has_separator. simpl. intuition discriminate.
Defined.

(** C8: the sentinel task is never entered into the name-to-task table: on
    return no name is mapped to it, nor is it in the task list, though it
    exists as a task object that states may be assigned to. *)
Theorem sentinel_never_registered
    (used_global_variables : Nts.t → Transition.t → Globals.t)
    (nts : Nts.t) (main : string) (σ σ' : Store.t) (ts : Tasks.t) :
  Tasks.compute_tasks used_global_variables nts main σ = (σ', Ok ts) →
  (∀ task_name,
      Tasks.name_to_task ts !! task_name ≠ Some (Tasks.idle_worker_task ts))
  ∧ (Tasks.idle_worker_task ts ∉ Tasks.tasks ts)
  ∧ Store.task_objs σ' !! Tasks.idle_worker_task ts
    = Some (Task.new "idle_worker_task").
Proof.
  intros Hrun.
  destruct (compute_tasks_returns _ _ _ _ _ _ Hrun) as [Hinv _].
  pose proof (si_idle _ _ _ _ _ _ Hinv) as Hidle.
  split_and!.
  - intros task_name Hlook.
    destruct (si_map _ _ _ _ _ _ Hinv _ _ Hlook) as (Hlt & _).
    rewrite Hidle in Hlt. lia.
  - intros Hin.
    destruct (si_tasks _ _ _ _ _ _ Hinv _ Hin) as [task_name Hlook].
    destruct (si_map _ _ _ _ _ _ Hinv _ _ Hlook) as (Hlt & _).
    rewrite Hidle in Hlt. lia.
  - rewrite Hidle. apply (si_idle_obj _ _ _ _ _ _ Hinv).
Qed.

Lemma sentinel_never_registered_witness :
  ((∀ task_name,
       Tasks.name_to_task (Demo.result Demo.nts) !! task_name
       ≠ Some (Tasks.idle_worker_task (Demo.result Demo.nts)))
   ∧ (Tasks.idle_worker_task (Demo.result Demo.nts)
      ∉ Tasks.tasks (Demo.result Demo.nts))
   ∧ Store.task_objs (Demo.compute Demo.nts).1
       !! Tasks.idle_worker_task (Demo.result Demo.nts)
     = Some (Task.new "idle_worker_task"))
  ∧ state_recorded (Demo.compute Demo.nts).1 3
      (Some (Tasks.idle_worker_task (Demo.result Demo.nts))).
Proof.
  split.
  - apply (sentinel_never_registered Demo.used_global_variables Demo.nts
             "main" Store.empty).
    vm_compute. reflexivity.
  - exists 5. vm_compute. split; reflexivity.
Defined.

(** C10: a task named like the sentinel coexists with it as a distinct
    object: when the main unit is called "idle_worker_task", or an origin
    annotation starts with "idle_worker_task:", a task of that name is
    created and registered, the table maps the name to it and not to the
    sentinel, and the state is assigned to it. *)
Theorem sentinel_name_coexists
    (used_global_variables : Nts.t → Transition.t → Globals.t)
    (nts : Nts.t) (main : string) (σ σ' : Store.t) (ts : Tasks.t)
    (bn : BasicNts.t) (s : State.t) :
  Tasks.compute_tasks used_global_variables nts main σ = (σ', Ok ts) →
  bn ∈ Tasks.discover nts → s ∈ BasicNts.states bn →
  (BasicNts.name bn = main ∧ BasicNts.name bn = "idle_worker_task")
  ∨ (BasicNts.name bn ≠ main
     ∧ ∃ origin rest,
         find_annot_origin (State.annotations s) = Some origin
         ∧ AnnotString.value origin
           = "idle_worker_task" +:+ String ":" rest) →
  ∃ p,
    Tasks.name_to_task ts !! "idle_worker_task" = Some p
    ∧ p ≠ Tasks.idle_worker_task ts
    ∧ p ∈ Tasks.tasks ts
    ∧ Store.task_objs σ' !! p = Some (Task.new "idle_worker_task")
    ∧ Store.task_objs σ' !! Tasks.idle_worker_task ts
      = Some (Task.new "idle_worker_task")
    ∧ state_recorded σ' (State.addr_of s) (Some p).
Proof.
  intros Hrun Hbn Hs Hyield.
  pose proof (compute_tasks_state_assigned _ _ _ _ _ _ _ _ Hrun Hbn Hs)
    as (q & owner & Hud & _ & Hsi & Hown).
  destruct (compute_tasks_returns _ _ _ _ _ _ Hrun) as [Hinv _].
  unfold visit_target, visit_addr in *. cbn [fst snd] in *.
  assert (Hlook : Tasks.name_to_task ts !! "idle_worker_task" = Some owner).
  { destruct Hyield as [[Hmain Hname] | (Hmain & origin & rest & Ho & Hv)].
    - rewrite bool_decide_eq_true_2 in Hown by done.
      simpl in Hown. by rewrite <- Hname.
    - rewrite bool_decide_eq_false_2 in Hown by done.
      cbn [negb] in Hown.
      destruct (target_of_origin bn s origin Ho) as [Htask _].
      rewrite (Htask "idle_worker_task" rest Hv) in Hown; [done |].
      unfold has_separator. simpl. intuition discriminate. }
  destruct (si_map _ _ _ _ _ _ Hinv _ _ Hlook) as (Hlt & _ & Hin & Hobj).
  exists owner. split_and!; try done.
  - rewrite (si_idle _ _ _ _ _ _ Hinv). lia.
  - rewrite (si_idle _ _ _ _ _ _ Hinv). apply (si_idle_obj _ _ _ _ _ _ Hinv).
  - by exists q.
Qed.

Lemma sentinel_name_coexists_witness :
  ∃ p,
    Tasks.name_to_task (Demo.result Demo.nts) !! "idle_worker_task" = Some p
    ∧ p ≠ Tasks.idle_worker_task (Demo.result Demo.nts)
    ∧ p ∈ Tasks.tasks (Demo.result Demo.nts)
    ∧ Store.task_objs (Demo.compute Demo.nts).1 !! p
      = Some (Task.new "idle_worker_task")
    ∧ Store.task_objs (Demo.compute Demo.nts).1
        !! Tasks.idle_worker_task (Demo.result Demo.nts)
      = Some (Task.new "idle_worker_task")
    ∧ state_recorded (Demo.compute Demo.nts).1 4 (Some p).
Proof.
  apply (sentinel_name_coexists Demo.used_global_variables Demo.nts "main"
           Store.empty (Demo.compute Demo.nts).1 (Demo.result Demo.nts)
           Demo.thread_unit Demo.idle_like).
  - vm_compute. reflexivity.
  - vm_compute. apply list_elem_of_further, list_elem_of_here.
  - do 2 apply list_elem_of_further. apply list_elem_of_here.
  - right. split; [vm_compute; discriminate |].
    exists (AnnotString.mk "origin" "idle_worker_task:0:x"), "0:x".
    split; reflexivity.
Defined.

(** C7: the pass throws exactly on a violated precondition and then returns
    no builder: it raises the double-initialization failure iff the scan
    meets a state or a transition that already carries a record, the
    missing-origin failure iff it meets a record-free state, split by
    annotation, that has no origin annotation, and it returns iff neither
    happens; the three exceptions are told apart by their messages; on
    well-formed input it returns. *)
Theorem failures_exactly_on_violations
    (used_global_variables : Nts.t → Transition.t → Globals.t)
    (nts : Nts.t) (main : string) (σ : Store.t) :
  (raises (Tasks.compute_tasks used_global_variables nts main σ)
          DoubleInitialization
   ↔ expected_failure σ nts main = Some DoubleInitialization)
  ∧ (raises (Tasks.compute_tasks used_global_variables nts main σ)
            MissingOriginMetadata
     ↔ expected_failure σ nts main = Some MissingOriginMetadata)
  ∧ (returns (Tasks.compute_tasks used_global_variables nts main σ)
     ↔ expected_failure σ nts main = None)
  ∧ (∀ e, (Tasks.compute_tasks used_global_variables nts main σ).2 = Throw e →
          e = logic_error "Precondition R4 failed"
          ∨ e = logic_error "Precondition Q2 does not hold"
          ∨ e = logic_error "Precondition R3 failed")
  ∧ (well_formed σ nts main →
     returns (Tasks.compute_tasks used_global_variables nts main σ)).
Proof.
  pose proof (compute_tasks_expected used_global_variables nts main σ) as Hexp.
  pose proof (compute_tasks_throws used_global_variables nts main σ) as Hthrow.
  pose proof (well_formed_expected σ nts main) as Hwf.
  unfold raises, returns.
  destruct (Tasks.compute_tasks used_global_variables nts main σ)
    as [σ' [ts | e]]; simpl in *.
  - rewrite Hexp. split_and!.
    + split; [by intros (e & ? & _) | done].
    + split; [by intros (e & ? & _) | done].
    + split; [done | by exists ts].
    + done.
    + intros _. by exists ts.
  - destruct Hexp as (f & Hf & Hexp). rewrite Hexp. split_and!.
    + split.
      * intros (e' & [= <-] & He). congruence.
      * intros [= ->]. by exists e.
    + split.
      * intros (e' & [= <-] & He). congruence.
      * intros [= ->]. by exists e.
    + split; [by intros [ts ?] | done].
    + intros e' [= <-].
      destruct (Hthrow σ' e eq_refl)
        as [-> | (_ & _ & _ & _ & _ & [[-> _] | [-> _]])]; auto.
    + intros Hwell. apply Hwf in Hwell. congruence.
Qed.

Lemma failures_exactly_on_violations_witness :
  returns (Tasks.compute_tasks Demo.used_global_variables Demo.nts "main"
             Store.empty).
Proof.
  apply (failures_exactly_on_violations Demo.used_global_variables Demo.nts
           "main" Store.empty).
  split_and!.
  - apply Forall_forall. vm_compute. repeat constructor.
  - apply Forall_forall. vm_compute. repeat constructor.
  - apply (bool_decide_unpack _). vm_compute. exact I.
  - apply (bool_decide_unpack _). vm_compute. exact I.
Defined.

(** C9: when the missing-origin exception leaves the pass, the state that
    triggered it (split by annotation, without origin) carries a record
    whose owning task is null, the states met before it carry their
    records with an owner, and the [user_data] slots are not as they were
    before the pass. *)
Theorem missing_origin_leaves_records
    (used_global_variables : Nts.t → Transition.t → Globals.t)
    (nts : Nts.t) (main : string) (σ σ' : Store.t) :
  Tasks.compute_tasks used_global_variables nts main σ
  = (σ', Throw (logic_error "Precondition R3 failed")) →
  ∃ pre bn s post,
    state_visits main (Tasks.discover nts) = pre ++ (bn, true, s) :: post
    ∧ find_annot_origin (State.annotations s) = None
    ∧ state_recorded σ' (State.addr_of s) None
    ∧ (∀ v, v ∈ pre → ∃ owner, state_recorded σ' (visit_addr v) (Some owner))
    ∧ Store.state_user_data σ' ≠ Store.state_user_data σ.
Proof.
  intros Hrun.
  destruct (compute_tasks_throws _ _ _ _ _ _ Hrun)
    as [? | (pre & [[bn b] s] & post & Hvs & Hpre
               & [[? _] | (_ & Htg & Hrec & Hnone)])];
    [done | done |].
  unfold visit_target, visit_addr, target_of in *. simpl in *.
  destruct b.
  - exists pre, bn, s, post. split_and!; try done.
    + destruct (find_annot_origin (State.annotations s)) as [origin|];
        [|done].
      by destruct (find ":" (AnnotString.value origin)).
    + intros Heq. destruct Hrec as (p & Hp & _). congruence.
  - done.
Qed.

Lemma missing_origin_leaves_records_witness :
  ∃ pre bn s post,
    state_visits "main" (Tasks.discover Demo.broken)
    = pre ++ (bn, true, s) :: post
    ∧ find_annot_origin (State.annotations s) = None
    ∧ state_recorded (Demo.compute Demo.broken).1 (State.addr_of s) None
    ∧ (∀ v, v ∈ pre →
            ∃ owner,
              state_recorded (Demo.compute Demo.broken).1 (visit_addr v)
                             (Some owner))
    ∧ Store.state_user_data (Demo.compute Demo.broken).1
      ≠ Store.state_user_data Store.empty.
Proof.
  apply (missing_origin_leaves_records Demo.used_global_variables Demo.broken
           "main" Store.empty (Demo.compute Demo.broken).1).
  vm_compute. reflexivity.
Defined.

(** C1: on the program made of the main unit alone, [compute_tasks]
    returns with the state owned by the task "main" and the transition
    carrying the summary of the primitive, which reads a global variable;
    but the task is as its constructor left it: its direct and its
    transitive summary are empty and cover nothing of that transition, and
    [main_task] was never assigned. *)
Theorem compute_tasks_summaries_left_empty :
  ∃ σ' ts task ti q,
    Demo.compute Demo.small = (σ', Ok ts)
    ∧ Tasks.tasks ts = [2]
    ∧ Tasks.main_task ts = None
    ∧ state_recorded σ' 1 (Some 2)
    ∧ Store.task_objs σ' !! 2 = Some task
    ∧ Task.name task = "main"
    ∧ Store.transition_user_data σ' !! 100 = Some q
    ∧ Store.transition_infos σ' !! q = Some ti
    ∧ TransitionInfo.global ti
      = Demo.used_global_variables Demo.small (Transition.mk 100 1 1)
    ∧ Task.direct_global task = Globals.new
    ∧ Task.transitive_global task = Globals.new
    ∧ ¬ Globals.covers (Task.direct_global task) (TransitionInfo.global ti)
    ∧ ¬ Globals.covers (Task.transitive_global task)
                       (TransitionInfo.global ti).
Proof.
  exists (Demo.compute Demo.small).1, (Demo.result Demo.small),
         (Task.new "main"),
         (TransitionInfo.mk 100
            (Demo.used_global_variables Demo.small (Transition.mk 100 1 1))),
         3.
  assert (Hnot : ¬ Globals.covers Globals.new
                   (Demo.used_global_variables Demo.small
                      (Transition.mk 100 1 1))).
  { intros [Hreads _]. simpl in Hreads.
    assert (Hin : 7 ∈ ({[ 7 ]} : gset nat)) by (by apply elem_of_singleton).
    apply Hreads in Hin. by apply not_elem_of_empty in Hin. }
  split_and!; try done; try (vm_compute; reflexivity).
  exists 1. split; vm_compute; reflexivity.
Qed.

(** The same holds of every run: each task of the returned list has both
    summaries empty, whatever its transitions read or write. *)
Lemma compute_tasks_summaries_always_empty
    (used_global_variables : Nts.t → Transition.t → Globals.t)
    (nts : Nts.t) (main : string) (σ σ' : Store.t) (ts : Tasks.t)
    (p : addr) (task : Task.t) :
  Tasks.compute_tasks used_global_variables nts main σ = (σ', Ok ts) →
  p ∈ Tasks.tasks ts → Store.task_objs σ' !! p = Some task →
  Task.direct_global task = Globals.new
  ∧ Task.transitive_global task = Globals.new
  ∧ Task.states task = []
  ∧ Tasks.main_task ts = None.
Proof.
  intros Hrun Hp Htask.
  destruct (compute_tasks_tasks_untouched _ _ _ _ _ _ _ Hrun Hp)
    as (task_name & _ & Hobj).
  destruct (compute_tasks_returns _ _ _ _ _ _ Hrun) as [Hinv _].
  rewrite Hobj in Htask. injection Htask as <-.
  split_and!; try done. apply (si_main_task _ _ _ _ _ _ Hinv).
Qed.

(** C2: [compute_transitive_globals] always returns, and then the
    transitive summary of every task of the list is the union of the direct
    summaries of all the tasks of the list: it reads what some task reads
    directly, may write what some task may write directly, and covers the
    task's own direct summary.  The equation also holds of what
    [compute_tasks] returns, where both sides are empty. *)
Theorem transitive_is_union_of_direct :
  (∀ (this : Tasks.t) (σ : Store.t),
      (Tasks.compute_transitive_globals this σ).2 = Ok this
      ∧ ∀ p task,
          p ∈ Tasks.tasks this →
          Store.task_objs (Tasks.compute_transitive_globals this σ).1 !! p
          = Some task →
          Task.transitive_global task
          = Tasks.union_all
              (Tasks.direct_of (Tasks.compute_transitive_globals this σ).1
                 <$> Tasks.tasks this)
          ∧ Globals.covers (Task.transitive_global task)
                           (Task.direct_global task)
          ∧ (∀ v, v ∈ Globals.reads (Task.transitive_global task)
                  ↔ ∃ q task', q ∈ Tasks.tasks this
                       ∧ Store.task_objs
                           (Tasks.compute_transitive_globals this σ).1 !! q
                         = Some task'
                       ∧ v ∈ Globals.reads (Task.direct_global task'))
          ∧ (∀ v, GlobalWrites.contains
                    (Globals.writes (Task.transitive_global task)) v = true
                  ↔ ∃ q task', q ∈ Tasks.tasks this
                       ∧ Store.task_objs
                           (Tasks.compute_transitive_globals this σ).1 !! q
                         = Some task'
                       ∧ GlobalWrites.contains
                           (Globals.writes (Task.direct_global task')) v
                         = true))
  ∧ (∀ (used_global_variables : Nts.t → Transition.t → Globals.t)
       (nts : Nts.t) (main : string) (σ σ' : Store.t) (ts : Tasks.t)
       p task,
      Tasks.compute_tasks used_global_variables nts main σ = (σ', Ok ts) →
      p ∈ Tasks.tasks ts → Store.task_objs σ' !! p = Some task →
      Task.transitive_global task
      = Tasks.union_all (Tasks.direct_of σ' <$> Tasks.tasks ts)
      ∧ Globals.covers (Task.transitive_global task)
                       (Task.direct_global task)).
Proof.
  split.
  - intros this σ.
    destruct (compute_transitive_globals_spec this σ)
      as (σ' & Hrun & Hdirect & Htrans).
    rewrite Hrun. simpl. split; [done |].
    intros p task Hp Htask.
    assert (Hsame : Tasks.direct_of σ' <$> Tasks.tasks this
                    = Tasks.direct_of σ <$> Tasks.tasks this).
    { apply list_fmap_ext. intros i q _. apply Hdirect. }
    rewrite Hsame, (Htrans p task Hp Htask).
    assert (Hmine : Task.direct_global task = Tasks.direct_of σ' p).
    { unfold Tasks.direct_of. by rewrite Htask. }
    assert (Hsome : ∀ (P : Globals.t → Prop),
      ¬ P Globals.new →
      ((∃ g, g ∈ Tasks.direct_of σ' <$> Tasks.tasks this ∧ P g)
       ↔ ∃ q task', q ∈ Tasks.tasks this
            ∧ Store.task_objs σ' !! q = Some task'
            ∧ P (Task.direct_global task'))).
    { intros P Hnew. split.
      - intros (g & Hg & HP).
        apply list_elem_of_fmap in Hg as (q & -> & Hq).
        unfold Tasks.direct_of in HP.
        destruct (Store.task_objs σ' !! q) as [task'|] eqn:Hlook; [|done].
        by exists q, task'.
      - intros (q & task' & Hq & Hlook & HP).
        exists (Tasks.direct_of σ' q). split.
        + by apply list_elem_of_fmap_2.
        + unfold Tasks.direct_of. by rewrite Hlook. }
    assert (Hreads : ∀ v, v ∉ Globals.reads Globals.new).
    { intros v. apply not_elem_of_empty. }
    assert (Hwrites : ∀ v, GlobalWrites.contains
                             (Globals.writes Globals.new) v ≠ true).
    { intros v Hv. unfold GlobalWrites.contains in Hv. simpl in Hv.
      apply bool_decide_eq_true in Hv. by apply not_elem_of_empty in Hv. }
    rewrite <- Hsame. split_and!; [done | | |].
    + rewrite Hmine. apply union_all_covers. by apply list_elem_of_fmap_2.
    + intros v. unfold Tasks.union_all. rewrite fold_union_reads.
      rewrite (Hsome (λ g, v ∈ Globals.reads g) (Hreads v)). split.
      * intros [Hv | ?]; [|done]. by apply Hreads in Hv.
      * intros ?. by right.
    + intros v. unfold Tasks.union_all. rewrite fold_union_contains.
      rewrite (Hsome (λ g, GlobalWrites.contains (Globals.writes g) v = true)
                 (Hwrites v)).
      split.
      * intros [Hv | ?]; [|done]. by apply Hwrites in Hv.
      * intros ?. by right.
  - intros ugv nts main σ σ' ts p task Hrun Hp Htask.
    destruct (compute_tasks_summaries_always_empty _ _ _ _ _ _ _ _
                Hrun Hp Htask) as (Hd & Ht & _).
    rewrite Ht, Hd. split; [|done].
    symmetry. apply union_all_new. intros g Hg.
    apply list_elem_of_fmap in Hg as (q & -> & Hq).
    destruct (compute_tasks_tasks_untouched _ _ _ _ _ _ _ Hrun Hq)
      as (task_name & _ & Hobj).
    unfold Tasks.direct_of. by rewrite Hobj.
Qed.

Lemma transitive_is_union_of_direct_witness :
  Globals.mk {[ 7; 9 ]} (GlobalWrites.mk ∅ true)
  = Tasks.union_all
      (Tasks.direct_of
         (Tasks.compute_transitive_globals Demo.two_builder Demo.two_tasks).1
         <$> Tasks.tasks Demo.two_builder)
  ∧ Globals.covers (Globals.mk {[ 7; 9 ]} (GlobalWrites.mk ∅ true))
                   (Globals.mk {[ 7 ]} (GlobalWrites.mk {[ 8 ]} false)).
Proof.
  pose proof (proj2 (proj1 transitive_is_union_of_direct
                       Demo.two_builder Demo.two_tasks)
                0 (Task.mk "a" [] (Globals.mk {[ 7 ]}
                                     (GlobalWrites.mk {[ 8 ]} false))
                     (Globals.mk {[ 7; 9 ]} (GlobalWrites.mk ∅ true))
                     [] [] None)) as H.
  simpl in H. destruct H as (H1 & H2 & _).
  - apply list_elem_of_here.
  - vm_compute. reflexivity.
  - split; [exact H1 | exact H2].
Defined.

(* ===================================================================== *)
(** ** More on the effect summaries *)
(* ===================================================================== *)

(** X1: membership in a write summary after each operation: a constructed
    summary contains nothing; after [insert ( v )] it contains what it did
    and [v]; after [insert_everything] it contains every variable; after
    [union_with] it contains what either operand does. *)
Theorem contains_after_operations (w x : GlobalWrites.t) (u v : addr) :
  GlobalWrites.contains GlobalWrites.new u = false
  ∧ GlobalWrites.contains (GlobalWrites.insert w v) u
    = GlobalWrites.contains w u || bool_decide (u = v)
  ∧ GlobalWrites.contains (GlobalWrites.insert_everything w) u = true
  ∧ GlobalWrites.contains (GlobalWrites.union_with w x) u
    = GlobalWrites.contains w u || GlobalWrites.contains x u.
Proof.
  split_and!.
  - unfold GlobalWrites.contains. simpl. apply bool_decide_eq_false.
    apply not_elem_of_empty.
  - unfold GlobalWrites.contains, GlobalWrites.insert.
    destruct w as [s [|]]; simpl; [done |].
    rewrite <- bool_decide_or. apply bool_decide_ext.
    rewrite elem_of_union, elem_of_singleton. tauto.
  - done.
  - apply GlobalWrites_contains_union.
Qed.

(** X2: with respect to covering, the union of two summaries is their least
    upper bound: it covers both, and whatever covers both covers it. *)
Theorem union_with_least_upper_bound (a b c : Globals.t) :
  Globals.covers (Globals.union_with a b) a
  ∧ Globals.covers (Globals.union_with a b) b
  ∧ (Globals.covers c a → Globals.covers c b →
     Globals.covers c (Globals.union_with a b)).
Proof.
  unfold Globals.covers, Globals.union_with.
  cbn [Globals.reads Globals.writes]. split; [|split].
  - split; [apply union_subseteq_l |]. intros v Hv.
    rewrite GlobalWrites_contains_union, Hv. done.
  - split; [apply union_subseteq_r |]. intros v Hv.
    rewrite GlobalWrites_contains_union, Hv. apply orb_true_r.
  - intros [Hra Hwa] [Hrb Hwb]. split; [by apply union_least |]. intros v.
    rewrite GlobalWrites_contains_union, orb_true_iff.
    intros [? | ?]; auto.
Qed.

Lemma union_with_least_upper_bound_witness :
  Globals.covers
    (Globals.mk {[ 7; 9 ]} (GlobalWrites.mk ∅ true))
    (Globals.union_with
       (Globals.mk {[ 7 ]} (GlobalWrites.mk {[ 8 ]} false))
       (Globals.mk {[ 9 ]} GlobalWrites.new)).
Proof.
  apply (union_with_least_upper_bound
           (Globals.mk {[ 7 ]} (GlobalWrites.mk {[ 8 ]} false))
           (Globals.mk {[ 9 ]} GlobalWrites.new)
           (Globals.mk {[ 7; 9 ]} (GlobalWrites.mk ∅ true))).
  - split; cbn [Globals.reads Globals.writes];
      [apply union_subseteq_l | done].
  - split; cbn [Globals.reads Globals.writes];
      [apply union_subseteq_r | done].
Defined.

(** X3: [insert ( v )] is the union with the exact summary holding [v]
    alone; the empty summary is a right unit of the union, and a left unit
    on the summaries satisfying I1. *)
Theorem insert_and_units (w : GlobalWrites.t) (v : addr) :
  GlobalWrites.insert w v
  = GlobalWrites.union_with w (GlobalWrites.mk {[ v ]} false)
  ∧ GlobalWrites.union_with w GlobalWrites.new = w
  ∧ (GlobalWrites.I1 w → GlobalWrites.union_with GlobalWrites.new w = w).
Proof.
  unfold GlobalWrites.insert, GlobalWrites.union_with, GlobalWrites.I1.
  destruct w as [s [|]]; simpl; split_and!; try done.
  - intros Hs. by rewrite Hs.
  - f_equal. apply (comm_L (∪)).
  - f_equal. apply (right_id_L ∅ (∪)).
  - intros _. f_equal. apply (left_id_L ∅ (∪)).
Qed.

Lemma insert_and_units_witness :
  GlobalWrites.union_with GlobalWrites.new (GlobalWrites.mk ∅ true)
  = GlobalWrites.mk ∅ true.
Proof.
  apply (insert_and_units (GlobalWrites.mk ∅ true) 0).
  unfold GlobalWrites.I1. simpl. reflexivity.
Defined.

(* ===================================================================== *)
(** ** More on the origin annotation *)
(* ===================================================================== *)

Lemma find_annot_origin_skip (pre l : list Annotation.t) :
  (∀ b, Annotation.String b ∈ pre → AnnotString.name b ≠ "origin") →
  find_annot_origin (pre ++ l) = find_annot_origin l.
Proof.
  induction pre as [|x pre IH]; intros Hpre; [done |].
  simpl. destruct x as [b | other].
  - rewrite bool_decide_eq_false_2 by (apply Hpre; by left).
    apply IH. intros b' Hb'. apply Hpre. by right.
  - apply IH. intros b' Hb'. apply Hpre. by right.
Qed.

(** X4: [find_annot_origin] gives the first string annotation named
    "origin", whatever stands before it being another kind of annotation
    or a string annotation of another name; it gives the null pointer
    exactly when the list holds no string annotation of that name. *)
Theorem find_annot_origin_first (ants : list Annotation.t) :
  (∀ a, find_annot_origin ants = Some a
        ↔ ∃ pre post,
            ants = pre ++ Annotation.String a :: post
            ∧ AnnotString.name a = "origin"
            ∧ ∀ b, Annotation.String b ∈ pre →
                   AnnotString.name b ≠ "origin")
  ∧ (find_annot_origin ants = None
     ↔ ∀ b, Annotation.String b ∈ ants → AnnotString.name b ≠ "origin").
Proof.
  split.
  - intros a. split.
    + induction ants as [|x ants IH]; [done |].
      simpl. destruct x as [b | other].
      * destruct (decide (AnnotString.name b = "origin")) as [Hb | Hb].
        -- rewrite bool_decide_eq_true_2 by done. intros [= ->].
           exists [], ants. split_and!; [done | done |].
           intros b' Hb'. by apply elem_of_nil in Hb'.
        -- rewrite bool_decide_eq_false_2 by done. intros Hfind.
           destruct (IH Hfind) as (pre & post & -> & Ha & Hpre).
           exists (Annotation.String b :: pre), post.
           split_and!; [done | done |].
           intros b' Hb'. apply elem_of_cons in Hb' as [[= ->] | Hb'];
             [done | by apply Hpre].
      * intros Hfind.
        destruct (IH Hfind) as (pre & post & -> & Ha & Hpre).
        exists (Annotation.Other other :: pre), post.
        split_and!; [done | done |].
        intros b' Hb'. apply elem_of_cons in Hb' as [? | Hb'];
          [done | by apply Hpre].
    + intros (pre & post & -> & Ha & Hpre).
      rewrite find_annot_origin_skip by done. simpl.
      by rewrite bool_decide_eq_true_2.
  - split.
    + induction ants as [|x ants IH]; intros Hfind b Hb.
      { by apply elem_of_nil in Hb. }
      simpl in Hfind. destruct x as [b' | other].
      * destruct (decide (AnnotString.name b' = "origin")) as [Hb' | Hb'].
        -- by rewrite bool_decide_eq_true_2 in Hfind.
        -- rewrite bool_decide_eq_false_2 in Hfind by done.
           apply elem_of_cons in Hb as [[= ->] | Hb]; [done | by apply IH].
      * apply elem_of_cons in Hb as [? | Hb]; [done | by apply IH].
    + intros Hall.
      rewrite <- (app_nil_r ants). by rewrite find_annot_origin_skip.
Qed.

(* ===================================================================== *)
(** ** More on the discovery of the units *)
(* ===================================================================== *)

Section discovery.

Implicit Types (bn x : BasicNts.t) (l : list BasicNts.t).

Lemma set_insert_elem bn l x :
  x ∈ Tasks.set_insert bn l → x = bn ∨ x ∈ l.
Proof.
  induction l as [|y l IH]; simpl.
  - intros Hx. apply list_elem_of_singleton in Hx. by left.
  - repeat case_match.
    + intros Hx. apply elem_of_cons in Hx as [-> | Hx]; [by left | by right].
    + by right.
    + intros Hx. apply elem_of_cons in Hx as [-> | Hx].
      * right. by left.
      * destruct (IH Hx) as [-> | ?]; [by left | right; by right].
Qed.

Lemma set_insert_keeps bn l x : x ∈ l → x ∈ Tasks.set_insert bn l.
Proof.
  induction l as [|y l IH]; simpl; intros Hx.
  { by apply elem_of_nil in Hx. }
  repeat case_match; [by right | done |].
  apply elem_of_cons in Hx as [-> | Hx]; [by left | right; by apply IH].
Qed.

Lemma set_insert_addr bn l :
  ∃ x, x ∈ Tasks.set_insert bn l
       ∧ BasicNts.addr_of x = BasicNts.addr_of bn.
Proof.
  induction l as [|y l IH]; simpl.
  - exists bn. split; [by left | done].
  - destruct (BasicNts.addr_of bn <? BasicNts.addr_of y)%nat eqn:Hlt.
    + exists bn. split; [by left | done].
    + destruct (BasicNts.addr_of bn =? BasicNts.addr_of y)%nat eqn:Heq.
      * exists y. split; [by left |]. by apply Nat.eqb_eq in Heq.
      * destruct IH as (x & Hx & Haddr). exists x. split; [by right | done].
Qed.

Lemma set_insert_sorted bn l :
  StronglySorted unit_before l →
  StronglySorted unit_before (Tasks.set_insert bn l).
Proof.
  unfold unit_before.
  induction l as [|y l IH]; simpl; intros Hsorted.
  - repeat constructor.
  - apply StronglySorted_cons in Hsorted as [Hy Hl].
    destruct (BasicNts.addr_of bn <? BasicNts.addr_of y)%nat eqn:Hlt.
    + apply Nat.ltb_lt in Hlt. constructor.
      * by constructor.
      * constructor; [done |].
        eapply Forall_impl; [exact Hy |]. simpl. intros z Hz. lia.
    + destruct (BasicNts.addr_of bn =? BasicNts.addr_of y)%nat eqn:Heq.
      * by constructor.
      * apply Nat.ltb_ge in Hlt. apply Nat.eqb_neq in Heq.
        constructor; [by apply IH |].
        apply Forall_forall. intros z Hz.
        apply set_insert_elem in Hz as [-> | Hz]; [lia |].
        rewrite Forall_forall in Hy. by apply Hy.
Qed.

Lemma unit_before_NoDup l : StronglySorted unit_before l → NoDup l.
Proof.
  induction 1 as [|x l Hl IH Hx]; constructor; [|done].
  intros Hin. rewrite Forall_forall in Hx. specialize (Hx x Hin).
  unfold unit_before in Hx. lia.
Qed.

(** The loop of [calculate_toplevel_bnts] from any sorted set. *)
Lemma discover_fold (insts : list Instance.t) l :
  StronglySorted unit_before l →
  StronglySorted unit_before
    (fold_left (λ acc inst, Tasks.set_insert (Instance.basic_nts inst) acc)
               insts l)
  ∧ (∀ x, x ∈ fold_left
                (λ acc inst, Tasks.set_insert (Instance.basic_nts inst) acc)
                insts l →
          x ∈ l ∨ ∃ inst, inst ∈ insts ∧ Instance.basic_nts inst = x)
  ∧ (∀ x, x ∈ l →
          x ∈ fold_left
                (λ acc inst, Tasks.set_insert (Instance.basic_nts inst) acc)
                insts l)
  ∧ (∀ inst, inst ∈ insts →
       ∃ x, x ∈ fold_left
                  (λ acc inst, Tasks.set_insert (Instance.basic_nts inst) acc)
                  insts l
            ∧ BasicNts.addr_of x = BasicNts.addr_of (Instance.basic_nts inst)).
Proof.
  revert l. induction insts as [|i insts IH]; intros l Hsorted; simpl.
  - split_and!; [done | by left | done |].
    intros inst Hinst. by apply elem_of_nil in Hinst.
  - destruct (IH (Tasks.set_insert (Instance.basic_nts i) l))
      as (Hs & Hfrom & Hkeep & Hall); [by apply set_insert_sorted |].
    split_and!; [done | | |].
    + intros x Hx. destruct (Hfrom x Hx) as [Hx' | (inst & Hinst & <-)].
      * apply set_insert_elem in Hx' as [-> | ?]; [|by left].
        right. exists i. split; [by left | done].
      * right. exists inst. split; [by right | done].
    + intros x Hx. by apply Hkeep, set_insert_keeps.
    + intros inst Hinst. apply elem_of_cons in Hinst as [-> | Hinst].
      * destruct (set_insert_addr (Instance.basic_nts i) l)
          as (x & Hx & Haddr).
        exists x. split; [by apply Hkeep | done].
      * by apply Hall.
Qed.

End discovery.

(** X5: the units [calculate_toplevel_bnts] collects are in strictly
    ascending order of address, so that no address occurs twice; each of
    them is the unit of some instance, and the address of the unit of every
    instance occurs among them. *)
Theorem discover_sorted_complete (nts : Nts.t) :
  StronglySorted unit_before (Tasks.discover nts)
  ∧ (∀ bn, bn ∈ Tasks.discover nts →
           ∃ inst, inst ∈ Nts.instances nts ∧ Instance.basic_nts inst = bn)
  ∧ (∀ inst, inst ∈ Nts.instances nts →
       ∃ bn, bn ∈ Tasks.discover nts
             ∧ BasicNts.addr_of bn
               = BasicNts.addr_of (Instance.basic_nts inst)).
Proof.
  destruct (discover_fold (Nts.instances nts) [])
    as (Hs & Hfrom & _ & Hall); [constructor |].
  split_and!; [done | | done].
  intros bn Hbn. destruct (Hfrom bn Hbn) as [Hnil | ?]; [|done].
  by apply elem_of_nil in Hnil.
Qed.

(** X6: the collected units do not depend on the order of the instances nor
    on how often a unit is instantiated: two instance lists with the same
    members, one address standing for one unit, give the same list of
    units. *)
Theorem discover_order_insensitive (l1 l2 : list Instance.t) :
  units_consistent l1 →
  (∀ inst, inst ∈ l1 ↔ inst ∈ l2) →
  Tasks.discover (Nts.mk l1) = Tasks.discover (Nts.mk l2).
Proof.
  intros Hcons Hsame.
  assert (Hcons2 : units_consistent l2).
  { intros i j Hi Hj. apply Hcons; by apply Hsame. }
  assert (Hmem : ∀ l, units_consistent l →
            ∀ bn, bn ∈ Tasks.discover (Nts.mk l)
                  ↔ ∃ inst, inst ∈ l ∧ Instance.basic_nts inst = bn).
  { intros l Hl bn.
    destruct (discover_fold l []) as (_ & Hfrom & _ & Hall); [constructor |].
    unfold Tasks.discover. simpl. split.
    - intros Hbn. destruct (Hfrom bn Hbn) as [Hnil | ?]; [|done].
      by apply elem_of_nil in Hnil.
    - intros (inst & Hinst & <-).
      destruct (Hall inst Hinst) as (x & Hx & Haddr).
      destruct (Hfrom x Hx) as [Hnil | (inst' & Hinst' & <-)].
      + by apply elem_of_nil in Hnil.
      + by rewrite <- (Hl inst' inst Hinst' Hinst Haddr). }
  destruct (discover_fold l1 []) as (Hs1 & _); [constructor |].
  destruct (discover_fold l2 []) as (Hs2 & _); [constructor |].
  apply (StronglySorted_unique_strong unit_before); try done.
  - unfold unit_before. intros x1 x2 _ _ ? ?. lia.
  - apply NoDup_Permutation.
    + by apply unit_before_NoDup.
    + by apply unit_before_NoDup.
    + intros bn. rewrite (Hmem l1 Hcons), (Hmem l2 Hcons2).
      split; intros (inst & Hinst & <-); exists inst;
        (split; [by apply Hsame | done]).
Qed.

Lemma discover_order_insensitive_witness :
  Tasks.discover Demo.nts
  = Tasks.discover
      (Nts.mk [Instance.mk Demo.main_unit; Instance.mk Demo.thread_unit]).
Proof.
  apply (discover_order_insensitive
           [Instance.mk Demo.thread_unit; Instance.mk Demo.main_unit;
            Instance.mk Demo.thread_unit]
           [Instance.mk Demo.main_unit; Instance.mk Demo.thread_unit]).
  - intros i j Hi Hj.
    repeat (apply elem_of_cons in Hi as [-> | Hi]);
      repeat (apply elem_of_cons in Hj as [-> | Hj]);
      try (by apply elem_of_nil in Hi); try (by apply elem_of_nil in Hj);
      simpl; intros Haddr; first [reflexivity | discriminate Haddr].
  - intros inst. rewrite !elem_of_cons, !elem_of_nil. tauto.
Defined.

(* ===================================================================== *)
(** ** More on the partition and the task table *)
(* ===================================================================== *)

Section table.

Variable used_global_variables : Nts.t → Transition.t → Globals.t.

Implicit Types (σ : Store.t) (this ts : Tasks.t) (v : visit).

(** A run that returns is a scan of the states that returns, followed by
    the scan of the transitions, which leaves the state side alone. *)
Lemma compute_tasks_returns_split nts main σ σ' ts :
  Tasks.compute_tasks used_global_variables nts main σ = (σ', Ok ts) →
  ∃ σ2,
    for_each visit_state (state_visits main (Tasks.discover nts))
             (builder_start nts main σ) (store_start σ) = (σ2, Ok ts)
    ∧ Store.state_user_data σ' = Store.state_user_data σ2
    ∧ Store.state_infos σ' = Store.state_infos σ2
    ∧ Store.task_objs σ' = Store.task_objs σ2.
Proof.
  rewrite compute_tasks_eq.
  destruct (for_each visit_state _ _ _) as [σ2 [this3 | e]]; [|done].
  pose proof (transition_scan_spec used_global_variables
                (transition_visits (Tasks.toplevel_bnts this3)) this3 σ2)
    as Htrans.
  intros Hrun. rewrite Hrun in Htrans.
  destruct Htrans as (-> & _ & ? & ? & ? & _). by exists σ2.
Qed.

Lemma split_scan_NoDup (vs : list visit) this σ σ' this' :
  NoDup (Tasks.tasks this) →
  (∀ p, p ∈ Tasks.tasks this → p < Store.brk σ) →
  for_each visit_state vs this σ = (σ', Ok this') →
  NoDup (Tasks.tasks this')
  ∧ ∀ p, p ∈ Tasks.tasks this' → p < Store.brk σ'.
Proof.
  revert this σ. induction vs as [|v vs IH]; intros this σ Hdup Hlt.
  - simpl. unfold ret. by intros [= <- <-].
  - rewrite for_each_cons. unfold visit_state at 1. rewrite split_state_eq.
    destruct (Store.state_user_data σ !! State.addr_of v.2); [done |].
    destruct (target_of v.1.1 v.1.2 v.2) as [|task_name|]; [| |done].
    + apply IH; [done |]. simpl. intros p Hp. specialize (Hlt p Hp). lia.
    + destruct (Tasks.name_to_task this !! task_name).
      * apply IH; [done |]. simpl. intros p Hp. specialize (Hlt p Hp). lia.
      * apply IH; simpl.
        -- apply NoDup_app. split_and!; [done | | apply NoDup_singleton].
           intros p Hp Hin. apply list_elem_of_singleton in Hin as ->.
           specialize (Hlt _ Hp). lia.
        -- intros p Hp. apply elem_of_app in Hp as [Hp | Hp].
           ++ specialize (Hlt p Hp). lia.
           ++ apply list_elem_of_singleton in Hp as ->. lia.
Qed.

Lemma split_scan_first_seen (vs : list visit) this σ σ' this'
    (acc : list string) :
  Forall2 (λ p task_name, Tasks.name_to_task this !! task_name = Some p)
          (Tasks.tasks this) acc →
  (∀ task_name, is_Some (Tasks.name_to_task this !! task_name) →
                task_name ∈ acc) →
  for_each visit_state vs this σ = (σ', Ok this') →
  Forall2 (λ p task_name, Tasks.name_to_task this' !! task_name = Some p)
          (Tasks.tasks this') (fold_left see vs acc).
Proof.
  revert this σ acc. induction vs as [|v vs IH]; intros this σ acc Hall Hdom.
  - simpl. unfold ret. by intros [= <- <-].
  - rewrite for_each_cons. unfold visit_state at 1. rewrite split_state_eq.
    simpl. unfold see at 2, visit_target.
    destruct (Store.state_user_data σ !! State.addr_of v.2); [done |].
    destruct (target_of v.1.1 v.1.2 v.2) as [|task_name|]; [| |done].
    + by apply IH.
    + destruct (Tasks.name_to_task this !! task_name) as [p|] eqn:Hlook.
      * rewrite bool_decide_eq_true_2 by (apply Hdom; by eauto).
        by apply IH.
      * assert (Hfresh : task_name ∉ acc).
        { intros Hin. apply list_elem_of_lookup in Hin as [i Hi].
          destruct (Forall2_lookup_r _ _ _ _ _ Hall Hi) as (p & _ & Hp).
          congruence. }
        rewrite bool_decide_eq_false_2 by done.
        apply IH; simpl.
        -- apply Forall2_app.
           ++ eapply Forall2_impl; [exact Hall |]. simpl.
              intros p task_name' Hp.
              rewrite lookup_insert_ne; [done | congruence].
           ++ constructor; [|constructor]. by rewrite lookup_insert_eq.
        -- intros task_name'. rewrite lookup_insert_is_Some.
           intros [<- | [_ Hsome]]; apply elem_of_app.
           ++ right. by apply list_elem_of_singleton.
           ++ left. by apply Hdom.
Qed.

End table.

(** X7: in by-unit-identity mode every state of the main unit, whatever
    its annotations, is assigned to one and the same task, the one
    registered under the name of the unit. *)
Theorem main_unit_one_task
    (used_global_variables : Nts.t → Transition.t → Globals.t)
    (nts : Nts.t) (main : string) (σ σ' : Store.t) (ts : Tasks.t)
    (bn : BasicNts.t) :
  Tasks.compute_tasks used_global_variables nts main σ = (σ', Ok ts) →
  bn ∈ Tasks.discover nts → BasicNts.name bn = main →
  BasicNts.states bn ≠ [] →
  ∃ p,
    Tasks.name_to_task ts !! main = Some p
    ∧ p ∈ Tasks.tasks ts
    ∧ Store.task_objs σ' !! p = Some (Task.new main)
    ∧ ∀ s, s ∈ BasicNts.states bn →
           state_recorded σ' (State.addr_of s) (Some p).
Proof.
  intros Hrun Hbn Hname Hstates.
  destruct (compute_tasks_returns _ _ _ _ _ _ Hrun) as [Hinv _].
  assert (Hone : ∀ s, s ∈ BasicNts.states bn →
            ∃ p, Tasks.name_to_task ts !! main = Some p
                 ∧ state_recorded σ' (State.addr_of s) (Some p)).
  { intros s Hs.
    pose proof (compute_tasks_state_assigned _ _ _ _ _ _ _ _ Hrun Hbn Hs)
      as (q & owner & Hud & _ & Hsi & Hown).
    rewrite bool_decide_eq_true_2 in Hown by done.
    unfold visit_target, visit_addr, target_of in *. simpl in *.
    exists owner. split; [by rewrite <- Hname | by exists q]. }
  destruct (BasicNts.states bn) as [|s0 rest] eqn:Hlist; [done |].
  destruct (Hone s0) as (p & Hp & _); [by left |].
  destruct (si_map _ _ _ _ _ _ Hinv _ _ Hp) as (_ & _ & Hin & Hobj).
  exists p. split_and!; try done.
  intros s Hs. destruct (Hone s Hs) as (p' & Hp' & Hrec). congruence.
Qed.

Lemma main_unit_one_task_witness :
  ∃ p,
    Tasks.name_to_task (Demo.result Demo.nts) !! "main" = Some p
    ∧ p ∈ Tasks.tasks (Demo.result Demo.nts)
    ∧ Store.task_objs (Demo.compute Demo.nts).1 !! p = Some (Task.new "main")
    ∧ ∀ s, s ∈ BasicNts.states Demo.main_unit →
           state_recorded (Demo.compute Demo.nts).1 (State.addr_of s) (Some p).
Proof.
  apply (main_unit_one_task Demo.used_global_variables Demo.nts "main"
           Store.empty (Demo.compute Demo.nts).1 (Demo.result Demo.nts)
           Demo.main_unit).
  - vm_compute. reflexivity.
  - vm_compute. apply list_elem_of_here.
  - reflexivity.
  - discriminate.
Defined.

(** X8: the task table a run returns is consistent: the task list holds no
    task twice and holds exactly the tasks the map points to, two names
    never share a task, and the task a name is mapped to carries that
    name. *)
Theorem task_table_consistent
    (used_global_variables : Nts.t → Transition.t → Globals.t)
    (nts : Nts.t) (main : string) (σ σ' : Store.t) (ts : Tasks.t) :
  Tasks.compute_tasks used_global_variables nts main σ = (σ', Ok ts) →
  NoDup (Tasks.tasks ts)
  ∧ (∀ p, p ∈ Tasks.tasks ts
          ↔ ∃ task_name, Tasks.name_to_task ts !! task_name = Some p)
  ∧ (∀ name1 name2 p,
        Tasks.name_to_task ts !! name1 = Some p →
        Tasks.name_to_task ts !! name2 = Some p → name1 = name2)
  ∧ (∀ task_name p,
        Tasks.name_to_task ts !! task_name = Some p →
        ∃ task, Store.task_objs σ' !! p = Some task
                ∧ Task.name task = task_name).
Proof.
  intros Hrun.
  destruct (compute_tasks_returns _ _ _ _ _ _ Hrun) as [Hinv _].
  destruct (compute_tasks_returns_split _ _ _ _ _ _ Hrun)
    as (σ2 & Hsplit & _).
  split_and!.
  - eapply split_scan_NoDup; [| |exact Hsplit]; simpl.
    + constructor.
    + intros p Hp. by apply elem_of_nil in Hp.
  - intros p. split; [apply (si_tasks _ _ _ _ _ _ Hinv) |].
    intros (task_name & Hlook).
    by destruct (si_map _ _ _ _ _ _ Hinv _ _ Hlook) as (_ & _ & ? & _).
  - intros name1 name2 p H1 H2.
    destruct (si_map _ _ _ _ _ _ Hinv _ _ H1) as (_ & _ & _ & Hobj1).
    destruct (si_map _ _ _ _ _ _ Hinv _ _ H2) as (_ & _ & _ & Hobj2).
    rewrite Hobj1 in Hobj2. by injection Hobj2.
  - intros task_name p Hlook.
    destruct (si_map _ _ _ _ _ _ Hinv _ _ Hlook) as (_ & _ & _ & Hobj).
    by exists (Task.new task_name).
Qed.

Lemma task_table_consistent_witness :
  NoDup (Tasks.tasks (Demo.result Demo.nts))
  ∧ (∀ p, p ∈ Tasks.tasks (Demo.result Demo.nts)
          ↔ ∃ task_name,
              Tasks.name_to_task (Demo.result Demo.nts) !! task_name = Some p)
  ∧ (∀ name1 name2 p,
        Tasks.name_to_task (Demo.result Demo.nts) !! name1 = Some p →
        Tasks.name_to_task (Demo.result Demo.nts) !! name2 = Some p →
        name1 = name2)
  ∧ (∀ task_name p,
        Tasks.name_to_task (Demo.result Demo.nts) !! task_name = Some p →
        ∃ task, Store.task_objs (Demo.compute Demo.nts).1 !! p = Some task
                ∧ Task.name task = task_name).
Proof.
  apply (task_table_consistent Demo.used_global_variables Demo.nts "main"
           Store.empty).
  vm_compute. reflexivity.
Defined.

(** X9: the task list is in first-seen order: its tasks are, one for one and
    in this order, the tasks of the names the scanned states ask for, each
    name taken where it is first asked for. *)
Theorem tasks_in_first_seen_order
    (used_global_variables : Nts.t → Transition.t → Globals.t)
    (nts : Nts.t) (main : string) (σ σ' : Store.t) (ts : Tasks.t) :
  Tasks.compute_tasks used_global_variables nts main σ = (σ', Ok ts) →
  Forall2 (λ p task_name,
             Tasks.name_to_task ts !! task_name = Some p
             ∧ Store.task_objs σ' !! p = Some (Task.new task_name))
          (Tasks.tasks ts)
          (first_seen (state_visits main (Tasks.discover nts))).
Proof.
  intros Hrun.
  destruct (compute_tasks_returns _ _ _ _ _ _ Hrun) as [Hinv _].
  destruct (compute_tasks_returns_split _ _ _ _ _ _ Hrun)
    as (σ2 & Hsplit & _).
  eapply Forall2_impl.
  - eapply (split_scan_first_seen _ _ _ _ _ []); [| |exact Hsplit]; simpl.
    + constructor.
    + intros task_name [p Hp]. by rewrite lookup_empty in Hp.
  - simpl. intros p task_name Hlook. split; [done |].
    by destruct (si_map _ _ _ _ _ _ Hinv _ _ Hlook) as (_ & _ & _ & ?).
Qed.

Lemma tasks_in_first_seen_order_witness :
  Forall2 (λ p task_name,
             Tasks.name_to_task (Demo.result Demo.nts) !! task_name = Some p
             ∧ Store.task_objs (Demo.compute Demo.nts).1 !! p
               = Some (Task.new task_name))
          (Tasks.tasks (Demo.result Demo.nts))
          ["main"; "worker"; "idle_worker_task"].
Proof.
  apply (tasks_in_first_seen_order Demo.used_global_variables Demo.nts "main"
           Store.empty (Demo.compute Demo.nts).1 (Demo.result Demo.nts)).
  vm_compute. reflexivity.
Defined.

(** X10: partition totality: on return every state of every discovered
    unit carries a record pointing back to it, whose owner is the sentinel
    or a task of the task list and is a live task object; two such states
    never share a record. *)
Theorem every_state_owned
    (used_global_variables : Nts.t → Transition.t → Globals.t)
    (nts : Nts.t) (main : string) (σ σ' : Store.t) (ts : Tasks.t) :
  Tasks.compute_tasks used_global_variables nts main σ = (σ', Ok ts) →
  (∀ bn s, bn ∈ Tasks.discover nts → s ∈ BasicNts.states bn →
     ∃ p owner,
       Store.state_user_data σ' !! State.addr_of s = Some p
       ∧ Store.state_infos σ' !! p
         = Some (StateInfo.mk (State.addr_of s) (Some owner))
       ∧ (owner = Tasks.idle_worker_task ts ∨ owner ∈ Tasks.tasks ts)
       ∧ is_Some (Store.task_objs σ' !! owner))
  ∧ (∀ bn1 s1 bn2 s2 p,
        bn1 ∈ Tasks.discover nts → s1 ∈ BasicNts.states bn1 →
        bn2 ∈ Tasks.discover nts → s2 ∈ BasicNts.states bn2 →
        Store.state_user_data σ' !! State.addr_of s1 = Some p →
        Store.state_user_data σ' !! State.addr_of s2 = Some p →
        State.addr_of s1 = State.addr_of s2).
Proof.
  intros Hrun.
  destruct (compute_tasks_returns _ _ _ _ _ _ Hrun) as [Hinv _].
  split.
  - intros bn s Hbn Hs.
    pose proof (compute_tasks_state_assigned _ _ _ _ _ _ _ _ Hrun Hbn Hs)
      as (q & owner & Hud & _ & Hsi & Hown).
    exists q, owner. split_and!; try done.
    + unfold visit_target in Hown.
      destruct (target_of _ _ _) as [|task_name|]; simpl in Hown;
        [by left | right | done].
      by destruct (si_map _ _ _ _ _ _ Hinv _ _ Hown) as (_ & _ & ? & _).
    + unfold visit_target in Hown.
      destruct (target_of _ _ _) as [|task_name|]; simpl in Hown; [| |done].
      * subst owner. rewrite (si_idle _ _ _ _ _ _ Hinv).
        rewrite (si_idle_obj _ _ _ _ _ _ Hinv). by eexists.
      * destruct (si_map _ _ _ _ _ _ Hinv _ _ Hown) as (_ & _ & _ & Hobj).
        rewrite Hobj. by eexists.
  - intros bn1 s1 bn2 s2 p Hbn1 Hs1 Hbn2 Hs2 Hp1 Hp2.
    pose proof (compute_tasks_state_assigned _ _ _ _ _ _ _ _ Hrun Hbn1 Hs1)
      as (q1 & owner1 & Hud1 & _ & Hsi1 & _).
    pose proof (compute_tasks_state_assigned _ _ _ _ _ _ _ _ Hrun Hbn2 Hs2)
      as (q2 & owner2 & Hud2 & _ & Hsi2 & _).
    unfold visit_addr in *. simpl in *.
    assert (q1 = p) by congruence. assert (q2 = p) by congruence.
    subst q1 q2. rewrite Hsi1 in Hsi2. by injection Hsi2.
Qed.

Lemma every_state_owned_witness :
  ∃ p owner,
    Store.state_user_data (Demo.compute Demo.nts).1 !! 3 = Some p
    ∧ Store.state_infos (Demo.compute Demo.nts).1 !! p
      = Some (StateInfo.mk 3 (Some owner))
    ∧ (owner = Tasks.idle_worker_task (Demo.result Demo.nts)
       ∨ owner ∈ Tasks.tasks (Demo.result Demo.nts))
    ∧ is_Some (Store.task_objs (Demo.compute Demo.nts).1 !! owner).
Proof.
  apply (proj1 (every_state_owned Demo.used_global_variables Demo.nts "main"
                  Store.empty (Demo.compute Demo.nts).1
                  (Demo.result Demo.nts) ltac:(vm_compute; reflexivity))
               Demo.thread_unit Demo.running_1).
  - vm_compute. apply list_elem_of_further, list_elem_of_here.
  - apply list_elem_of_further, list_elem_of_here.
Defined.

(** X11: effect completeness: on return every transition of every
    discovered unit carries a record pointing back to it and holding the
    summary the primitive gives for it; two such transitions never share a
    record. *)
Theorem every_transition_summarised
    (used_global_variables : Nts.t → Transition.t → Globals.t)
    (nts : Nts.t) (main : string) (σ σ' : Store.t) (ts : Tasks.t) :
  Tasks.compute_tasks used_global_variables nts main σ = (σ', Ok ts) →
  (∀ bn tr, bn ∈ Tasks.discover nts → tr ∈ BasicNts.transitions bn →
     ∃ p,
       Store.transition_user_data σ' !! Transition.addr_of tr = Some p
       ∧ Store.transition_infos σ' !! p
         = Some (TransitionInfo.mk (Transition.addr_of tr)
                   (used_global_variables nts tr)))
  ∧ (∀ bn1 tr1 bn2 tr2 p,
        bn1 ∈ Tasks.discover nts → tr1 ∈ BasicNts.transitions bn1 →
        bn2 ∈ Tasks.discover nts → tr2 ∈ BasicNts.transitions bn2 →
        Store.transition_user_data σ' !! Transition.addr_of tr1 = Some p →
        Store.transition_user_data σ' !! Transition.addr_of tr2 = Some p →
        Transition.addr_of tr1 = Transition.addr_of tr2).
Proof.
  intros Hrun.
  assert (Hrec : ∀ bn tr,
            bn ∈ Tasks.discover nts → tr ∈ BasicNts.transitions bn →
            ∃ p,
              Store.transition_user_data σ' !! Transition.addr_of tr = Some p
              ∧ Store.transition_infos σ' !! p
                = Some (TransitionInfo.mk (Transition.addr_of tr)
                          (used_global_variables nts tr))).
  { intros bn tr Hbn Htr.
    by apply (compute_tasks_R1_R2 _ _ _ _ _ _ _ Hrun Hbn). }
  split; [done |].
  intros bn1 tr1 bn2 tr2 p Hbn1 Htr1 Hbn2 Htr2 Hp1 Hp2.
  destruct (Hrec _ _ Hbn1 Htr1) as (q1 & Hq1 & Hti1).
  destruct (Hrec _ _ Hbn2 Htr2) as (q2 & Hq2 & Hti2).
  assert (q1 = p) by congruence. assert (q2 = p) by congruence.
  subst q1 q2. rewrite Hti1 in Hti2. by injection Hti2.
Qed.

Lemma every_transition_summarised_witness :
  ∃ p,
    Store.transition_user_data (Demo.compute Demo.nts).1 !! 101 = Some p
    ∧ Store.transition_infos (Demo.compute Demo.nts).1 !! p
      = Some (TransitionInfo.mk 101
                (Demo.used_global_variables Demo.nts (Transition.mk 101 2 3))).
Proof.
  apply (proj1 (every_transition_summarised Demo.used_global_variables
                  Demo.nts "main" Store.empty (Demo.compute Demo.nts).1
                  (Demo.result Demo.nts) ltac:(vm_compute; reflexivity))
               Demo.thread_unit (Transition.mk 101 2 3)).
  - vm_compute. apply list_elem_of_further, list_elem_of_here.
  - apply list_elem_of_here.
Defined.

(* ===================================================================== *)
(** ** More on the failures and on what the pass leaves alone *)
(* ===================================================================== *)

Section more_failures.

Variable used_global_variables : Nts.t → Transition.t → Globals.t.

Implicit Types (σ : Store.t) (this : Tasks.t) (v : visit).

Lemma expected_states_inr (vs : list visit) (carried carried' : gset addr) :
  expected_states carried vs = inr carried' →
  (∀ v, v ∈ vs →
        (visit_addr v ∉ carried) ∧ (v.1.2 = true → has_origin v.2 = true))
  ∧ NoDup (visit_addr <$> vs).
Proof.
  revert carried. induction vs as [|v vs IH]; intros carried; simpl.
  - intros _. split; [|constructor]. intros v Hv. by apply elem_of_nil in Hv.
  - destruct (decide (visit_addr v ∈ carried)) as [Hin | Hout].
    { by rewrite bool_decide_eq_true_2. }
    rewrite bool_decide_eq_false_2 by done.
    destruct (v.1.2 && negb (has_origin v.2)) eqn:Hmiss; [done |].
    intros Hrest. destruct (IH _ Hrest) as [Hclean Hdup]. split.
    + intros v' Hv'. apply elem_of_cons in Hv' as [-> | Hv'].
      * split; [done |]. intros Hb. rewrite Hb in Hmiss. simpl in Hmiss.
        by apply negb_false_iff in Hmiss.
      * destruct (Hclean v' Hv') as [Hnot Horigin]. split; [|done].
        intros Hin. apply Hnot. apply elem_of_union. by right.
    + constructor; [|done].
      intros Hin. apply list_elem_of_fmap in Hin as (v' & Heq & Hv').
      destruct (Hclean v' Hv') as [Hnot _]. apply Hnot.
      apply elem_of_union. left. apply elem_of_singleton. by rewrite Heq.
Qed.

Lemma expected_transitions_None (trs : list Transition.t)
    (carried : gset addr) :
  expected_transitions carried trs = None →
  (∀ tr, tr ∈ trs → Transition.addr_of tr ∉ carried)
  ∧ NoDup (Transition.addr_of <$> trs).
Proof.
  revert carried. induction trs as [|tr trs IH]; intros carried; simpl.
  - intros _. split; [|constructor].
    intros tr Htr. by apply elem_of_nil in Htr.
  - destruct (decide (Transition.addr_of tr ∈ carried)) as [Hin | Hout].
    { by rewrite bool_decide_eq_true_2. }
    rewrite bool_decide_eq_false_2 by done.
    intros Hrest. destruct (IH _ Hrest) as [Hclean Hdup]. split.
    + intros tr' Htr'. apply elem_of_cons in Htr' as [-> | Htr']; [done |].
      intros Hin. apply (Hclean tr' Htr'). apply elem_of_union. by right.
    + constructor; [|done].
      intros Hin. apply list_elem_of_fmap in Hin as (tr' & Heq & Htr').
      apply (Hclean tr' Htr'). apply elem_of_union. left.
      apply elem_of_singleton. by rewrite Heq.
Qed.

Lemma expected_well_formed σ (nts : Nts.t) (main : string) :
  expected_failure σ nts main = None → well_formed σ nts main.
Proof.
  unfold expected_failure, well_formed.
  destruct (expected_states _ _) as [f | carried'] eqn:Hstates; [done |].
  intros Htrans.
  destruct (expected_states_inr _ _ _ Hstates) as [Hclean Hdup].
  destruct (expected_transitions_None _ _ Htrans) as [Hclean_t Hdup_t].
  split_and!; try done.
  - intros v Hv. destruct (Hclean v Hv) as [Hnot Horigin].
    split; [by apply not_elem_of_dom | done].
  - intros tr Htr. apply not_elem_of_dom. by apply Hclean_t.
Qed.

(** What one turn of the scan of the states does to the slots. *)
Lemma visit_state_slots this v σ :
  (Store.state_user_data (visit_state this v σ).1 = Store.state_user_data σ
   ∨ (Store.state_user_data σ !! visit_addr v = None
      ∧ Store.state_user_data (visit_state this v σ).1
        = <[visit_addr v := Store.brk σ]> (Store.state_user_data σ)))
  ∧ Store.transition_user_data (visit_state this v σ).1
    = Store.transition_user_data σ.
Proof.
  unfold visit_state, visit_addr. rewrite split_state_eq.
  destruct (Store.state_user_data σ !! State.addr_of v.2) eqn:Hud;
    [by split; [left |] |].
  repeat case_match; simpl; (split; [right |]); done.
Qed.

Lemma split_scan_slots (vs : list visit) this σ :
  (∀ a, a ∉ visit_addr <$> vs →
        Store.state_user_data (for_each visit_state vs this σ).1 !! a
        = Store.state_user_data σ !! a)
  ∧ (∀ a p, Store.state_user_data σ !! a = Some p →
            Store.state_user_data (for_each visit_state vs this σ).1 !! a
            = Some p)
  ∧ Store.transition_user_data (for_each visit_state vs this σ).1
    = Store.transition_user_data σ.
Proof.
  revert this σ. induction vs as [|v vs IH]; intros this σ; [done |].
  rewrite for_each_cons.
  destruct (visit_state_slots this v σ) as [Hsud Htud].
  assert (Hone :
    (∀ a, a ≠ visit_addr v →
          Store.state_user_data (visit_state this v σ).1 !! a
          = Store.state_user_data σ !! a)
    ∧ (∀ a p, Store.state_user_data σ !! a = Some p →
              Store.state_user_data (visit_state this v σ).1 !! a = Some p)).
  { destruct Hsud as [-> | [Hnone ->]]; [done |]. split.
    - intros a Ha. by rewrite lookup_insert_ne.
    - intros a p Hp. rewrite lookup_insert_ne; [done | congruence]. }
  destruct Hone as [Hout Hmono].
  destruct (visit_state this v σ) as [σ1 [this1 | e]]; simpl in *.
  - destruct (IH this1 σ1) as (IHout & IHmono & IHtud). split_and!.
    + intros a Ha. apply not_elem_of_cons in Ha.
      rewrite IHout by tauto. apply Hout. tauto.
    + intros a p Hp. by apply IHmono, Hmono.
    + congruence.
  - split_and!; [|done..].
    intros a Ha. apply not_elem_of_cons in Ha.
    apply Hout. tauto.
Qed.

Lemma transition_scan_slots (trs : list Transition.t) this σ :
  (∀ a, a ∉ Transition.addr_of <$> trs →
        Store.transition_user_data
          (for_each (Tasks.transition_info used_global_variables)
                    trs this σ).1 !! a
        = Store.transition_user_data σ !! a)
  ∧ (∀ a p, Store.transition_user_data σ !! a = Some p →
            Store.transition_user_data
              (for_each (Tasks.transition_info used_global_variables)
                        trs this σ).1 !! a
            = Some p)
  ∧ Store.state_user_data
      (for_each (Tasks.transition_info used_global_variables) trs this σ).1
    = Store.state_user_data σ.
Proof.
  revert this σ. induction trs as [|tr trs IH]; intros this σ; [done |].
  rewrite for_each_cons, transition_info_eq.
  destruct (Store.transition_user_data σ !! Transition.addr_of tr)
    as [q|] eqn:Hud; [done |].
  destruct (IH this (attach_transition tr
                       (used_global_variables (Tasks.n this) tr) σ))
    as (IHout & IHmono & IHsud).
  simpl in *. split_and!.
  - intros a Ha. apply not_elem_of_cons in Ha.
    rewrite IHout by tauto. rewrite lookup_insert_ne; [done | ]. 
    intros Heq. by destruct Ha.
  - intros a p Hp. apply IHmono. rewrite lookup_insert_ne; [done | congruence].
  - done.
Qed.

End more_failures.

(** X12: [compute_tasks] returns exactly on well-formed input: no state or
    transition of a discovered unit carries a record, none is listed twice,
    and every state split by annotation has its origin annotation. *)
Theorem returns_iff_well_formed
    (used_global_variables : Nts.t → Transition.t → Globals.t)
    (nts : Nts.t) (main : string) (σ : Store.t) :
  returns (Tasks.compute_tasks used_global_variables nts main σ)
  ↔ well_formed σ nts main.
Proof.
  pose proof (compute_tasks_expected used_global_variables nts main σ) as Hexp.
  unfold returns.
  destruct (Tasks.compute_tasks used_global_variables nts main σ)
    as [σ' [ts | e]]; simpl in *.
  - split; [intros _; by apply expected_well_formed | intros _; by exists ts].
  - destruct Hexp as (f & _ & Hexp). split; [by intros [ts ?] |].
    intros Hwell. apply well_formed_expected in Hwell. congruence.
Qed.

Lemma returns_iff_well_formed_witness :
  well_formed Store.empty Demo.nts "main".
Proof.
  apply (returns_iff_well_formed Demo.used_global_variables Demo.nts "main"
           Store.empty).
  exists (Demo.result Demo.nts). vm_compute. reflexivity.
Defined.

(** X13: the pass is single-shot: after a run that returned, a second run on
    the same program and the store the first one left raises the
    double-initialization failure, whatever the main name and the primitive,
    as soon as some discovered unit has a state or a transition. *)
Theorem second_run_raises
    (used_global_variables : Nts.t → Transition.t → Globals.t)
    (nts : Nts.t) (main : string) (σ σ' : Store.t) (ts : Tasks.t)
    (bn : BasicNts.t) :
  Tasks.compute_tasks used_global_variables nts main σ = (σ', Ok ts) →
  bn ∈ Tasks.discover nts →
  BasicNts.states bn ≠ [] ∨ BasicNts.transitions bn ≠ [] →
  ∀ (again : Nts.t → Transition.t → Globals.t) (main' : string),
    raises (Tasks.compute_tasks again nts main' σ') DoubleInitialization.
Proof.
  intros Hrun Hbn Hnode again main'.
  destruct (compute_tasks_returns _ _ _ _ _ _ Hrun) as [Hinv Hrec].
  assert (Hexp : expected_failure σ' nts main' = Some DoubleInitialization).
  { unfold expected_failure.
    destruct (state_visits main' (Tasks.discover nts)) as [|v vs] eqn:Hvs.
    - simpl.
      destruct (transition_visits (Tasks.discover nts)) as [|tr trs] eqn:Htrs.
      + exfalso. destruct Hnode as [Hs | Ht].
        * destruct (BasicNts.states bn) as [|s rest] eqn:Hlist; [done |].
          assert (Hin : (bn, negb (bool_decide (BasicNts.name bn = main')), s)
                        ∈ state_visits main' (Tasks.discover nts)).
          { apply elem_of_state_visits. exists bn, s.
            split_and!; [done | | done]. rewrite Hlist. by left. }
          rewrite Hvs in Hin. by apply elem_of_nil in Hin.
        * destruct (BasicNts.transitions bn) as [|tr rest] eqn:Hlist;
            [done |].
          assert (Hin : tr ∈ transition_visits (Tasks.discover nts)).
          { unfold transition_visits. apply list_elem_of_bind.
            exists bn. split; [|done]. rewrite Hlist. by left. }
          rewrite Htrs in Hin. by apply elem_of_nil in Hin.
      + simpl. destruct (Hrec tr) as (p & Hp & _); [by left |].
        rewrite bool_decide_eq_true_2; [done |].
        apply elem_of_dom. by eexists.
    - simpl.
      assert (Hv : v ∈ state_visits main' (Tasks.discover nts))
        by (rewrite Hvs; by left).
      apply elem_of_state_visits in Hv as (bn' & s & Hbn' & Hs & ->).
      pose proof (compute_tasks_state_assigned _ _ _ _ _ _ _ _ Hrun Hbn' Hs)
        as (q & owner & Hud & _).
      unfold visit_addr in *. simpl in *.
      rewrite bool_decide_eq_true_2; [done |].
      apply elem_of_dom. by eexists. }
  pose proof (compute_tasks_expected again nts main' σ') as Hout.
  unfold raises.
  destruct (Tasks.compute_tasks again nts main' σ') as [σ'' [ts' | e]];
    simpl in *; [congruence |].
  destruct Hout as (f & Hf & Hexp'). exists e. split; [done | congruence].
Qed.

Lemma second_run_raises_witness :
  raises (Tasks.compute_tasks Demo.used_global_variables Demo.nts "main"
            (Demo.compute Demo.nts).1)
         DoubleInitialization.
Proof.
  apply (second_run_raises Demo.used_global_variables Demo.nts "main"
           Store.empty (Demo.compute Demo.nts).1 (Demo.result Demo.nts)
           Demo.main_unit).
  - vm_compute. reflexivity.
  - vm_compute. apply list_elem_of_here.
  - left. discriminate.
Defined.

(** X14: the exception of the scan of the transitions comes after the
    partition: when "Precondition Q2 does not hold" leaves the pass, every
    state of every discovered unit carries its record with an owner. *)
Theorem partition_done_when_transition_fails
    (used_global_variables : Nts.t → Transition.t → Globals.t)
    (nts : Nts.t) (main : string) (σ σ' : Store.t)
    (bn : BasicNts.t) (s : State.t) :
  Tasks.compute_tasks used_global_variables nts main σ
  = (σ', Throw (logic_error "Precondition Q2 does not hold")) →
  bn ∈ Tasks.discover nts → s ∈ BasicNts.states bn →
  ∃ owner, state_recorded σ' (State.addr_of s) (Some owner).
Proof.
  rewrite compute_tasks_eq.
  pose proof (split_scan_spec nts main (Store.brk σ)
                (state_visits main (Tasks.discover nts))
                _ _ (split_inv_start nts main σ)) as Hsplit.
  destruct (for_each visit_state _ _ _) as [σ2 [this3 | e]].
  - destruct Hsplit as [Hinv _].
    pose proof (transition_scan_spec used_global_variables
                  (transition_visits (Tasks.toplevel_bnts this3)) this3 σ2)
      as Htrans.
    intros Hrun Hbn Hs. rewrite Hrun in Htrans.
    destruct Htrans as (_ & Hsud & Hsi).
    destruct (si_states _ _ _ _ _ _ Hinv
                (bn, negb (bool_decide (BasicNts.name bn = main)), s))
      as (p & owner & Hp & _ & Hinfo & _).
    { apply elem_of_state_visits. by exists bn, s. }
    exists owner, p. by rewrite Hsud, Hsi.
  - intros [= -> ->].
    by destruct Hsplit as (_ & _ & _ & _ & _ & [[? _] | [? _]]).
Qed.

Lemma partition_done_when_transition_fails_witness :
  ∃ owner,
    state_recorded
      (Tasks.compute_tasks Demo.used_global_variables Demo.small "main"
         (attach_transition (Transition.mk 100 1 1) Globals.new Store.empty)).1
      1 (Some owner).
Proof.
  apply (partition_done_when_transition_fails Demo.used_global_variables
           Demo.small "main"
           (attach_transition (Transition.mk 100 1 1) Globals.new Store.empty)
           _ Demo.main_unit (State.mk 1 (Demo.origin "st_0"))).
  - vm_compute. reflexivity.
  - vm_compute. apply list_elem_of_here.
  - apply list_elem_of_here.
Defined.

(** X15: the pass only touches the nodes of the discovered units and never
    takes a record away: whether it returns or throws, the [user_data] slot
    of a state or transition it does not scan is as it was, and a slot
    that held a record still holds the same one. *)
Theorem nodes_outside_untouched
    (used_global_variables : Nts.t → Transition.t → Globals.t)
    (nts : Nts.t) (main : string) (σ : Store.t) :
  (∀ a, a ∉ visit_addr <$> state_visits main (Tasks.discover nts) →
        Store.state_user_data
          (Tasks.compute_tasks used_global_variables nts main σ).1 !! a
        = Store.state_user_data σ !! a)
  ∧ (∀ a, a ∉ Transition.addr_of <$> transition_visits (Tasks.discover nts) →
          Store.transition_user_data
            (Tasks.compute_tasks used_global_variables nts main σ).1 !! a
          = Store.transition_user_data σ !! a)
  ∧ (∀ a p, Store.state_user_data σ !! a = Some p →
            Store.state_user_data
              (Tasks.compute_tasks used_global_variables nts main σ).1 !! a
            = Some p)
  ∧ (∀ a p, Store.transition_user_data σ !! a = Some p →
            Store.transition_user_data
              (Tasks.compute_tasks used_global_variables nts main σ).1 !! a
            = Some p).
Proof.
  rewrite compute_tasks_eq.
  pose proof (split_scan_slots (state_visits main (Tasks.discover nts))
                (builder_start nts main σ) (store_start σ))
    as (Hout & Hmono & Htud).
  pose proof (split_scan_spec nts main (Store.brk σ)
                (state_visits main (Tasks.discover nts))
                _ _ (split_inv_start nts main σ)) as Hsplit.
  destruct (for_each visit_state _ _ _) as [σ2 [this3 | e]]; simpl in *.
  - destruct Hsplit as [Hinv _]. rewrite (si_toplevel _ _ _ _ _ _ Hinv).
    pose proof (transition_scan_slots used_global_variables
                  (transition_visits (Tasks.discover nts)) this3 σ2)
      as (Hout_t & Hmono_t & Hsud).
    split_and!.
    + intros a Ha. rewrite Hsud. by apply Hout.
    + intros a Ha. rewrite Hout_t by done. by rewrite Htud.
    + intros a p Hp. rewrite Hsud. by apply Hmono.
    + intros a p Hp. apply Hmono_t. by rewrite Htud.
  - split_and!; [done | | done |].
    + intros a _. by rewrite Htud.
    + intros a p Hp. by rewrite Htud.
Qed.

Lemma nodes_outside_untouched_witness :
  Store.state_user_data
    (Tasks.compute_tasks Demo.used_global_variables Demo.small "main"
       (Demo.compute Demo.broken).1).1 !! 2
  = Some 1.
Proof.
  apply (nodes_outside_untouched Demo.used_global_variables Demo.small "main"
           (Demo.compute Demo.broken).1).
  vm_compute. reflexivity.
Defined.
